(** * Change-aware directory backup: [backup.ts]

    A shallow embedding of
    [nodejs-gmp-template-module-2-standard-library/src/backup.ts] and the
    properties of its four exported functions: [calculateDirectoryChecksum],
    [getLastBackupHash], [createArchive] and [runBackup].

    Conventions of the embedding:
    - a JavaScript string is the list of its UTF-16 code units ([jsstring]);
    - an [async] function is a computation in the monad [M], which threads
      the state of the outside world (file system, clock, console) and can
      end in a thrown [Error]; every [await] is a monadic bind, so that the
      steps run one after the other as they do in the source. The reads
      that [Promise.all] waits for are all started before any is awaited;
    - the Node.js services the program calls ([fs/promises], [child_process],
      [crypto], [path], [Date], [console]) are modelled next to the code. *)

From Stdlib Require Import ZArith Lia List String Ascii.
From stdpp Require Import base option list gmap.

Import ListNotations.
Open Scope Z_scope.

(** Split a conjunction into its parts, without touching the parts. *)
Ltac conj_split := repeat match goal with |- _ /\ _ => split end.

(* ===================================================================== *)
(** * JavaScript strings                                                  *)
(* ===================================================================== *)

Module JsString.

(** A string value: its UTF-16 code units, each below [2^16]. *)
Abbreviation jsstring := (list N).

(** A literal of the source, given by its ASCII characters. *)
Definition lit (s : string) : jsstring :=
  List.map N_of_ascii (list_ascii_of_string s).

(** The code units of the line feed and of the double quote. *)
Definition line_feed : N := 10.
Definition double_quote : N := 34.

(** [String.prototype.startsWith], used to describe the other operations:
    [starts_with p s] holds when [p] is a prefix of [s]. *)
Fixpoint starts_with (p s : jsstring) : bool :=
  match p, s with
  | [], _ => true
  | _ :: _, [] => false
  | a :: p', b :: s' => N.eqb a b && starts_with p' s'
  end.

(** [s.includes(p)]: [p] occurs somewhere in [s]. *)
Fixpoint includes (s p : jsstring) : bool :=
  starts_with p s ||
  match s with
  | [] => false
  | _ :: s' => includes s' p
  end.

(** The code units removed by [String.prototype.trim]: the WhiteSpace and
    LineTerminator productions of ECMAScript (TAB, LF, VT, FF, CR, SP, NBSP,
    the Unicode space separators, LS, PS and the byte order mark). *)
Definition is_white_space (c : N) : bool :=
  (N.leb 9 c && N.leb c 13)
  || N.eqb c 32 || N.eqb c 160 || N.eqb c 5760
  || (N.leb 8192 c && N.leb c 8202)
  || N.eqb c 8232 || N.eqb c 8233 || N.eqb c 8239 || N.eqb c 8287
  || N.eqb c 12288 || N.eqb c 65279.

(** [trimStart]. *)
Fixpoint trim_start (s : jsstring) : jsstring :=
  match s with
  | c :: s' => if is_white_space c then trim_start s' else s
  | [] => []
  end.

(** [trimEnd]. *)
Definition trim_end (s : jsstring) : jsstring :=
  List.rev (trim_start (List.rev s)).

(** [s.trim()]. *)
Definition trim (s : jsstring) : jsstring := trim_end (trim_start s).

(** The scanning loop of [s.split(sep)] for a non-empty separator. [skip]
    counts the code units of a separator just matched that are still to be
    passed over; [cur] holds the current piece, last unit first. *)
Fixpoint split_scan (sep s : jsstring) (skip : nat) (cur : jsstring)
  : list jsstring :=
  match s with
  | [] => [List.rev cur]
  | c :: s' =>
      match skip with
      | S k => split_scan sep s' k cur
      | O =>
          if starts_with sep s
          then List.rev cur :: split_scan sep s' (Nat.pred (List.length sep)) []
          else split_scan sep s' O (c :: cur)
      end
  end.

(** [s.split(sep)]: the pieces of [s] between the successive occurrences of
    [sep], found from left to right; with the empty separator, the code
    units of [s] one by one. *)
Definition split (s sep : jsstring) : list jsstring :=
  match sep with
  | [] => List.map (fun c => [c]) s
  | _ :: _ => split_scan sep s O []
  end.

(** [arr.join(sep)]. *)
Fixpoint join (sep : jsstring) (arr : list jsstring) : jsstring :=
  match arr with
  | [] => []
  | [x] => x
  | x :: rest => x ++ sep ++ join sep rest
  end.

(** [s.replace(/[...]/g, to)] for a character class: every code unit that
    satisfies [cls] is replaced by [to]. *)
Definition replace_class (cls : N -> bool) (to : jsstring) (s : jsstring)
  : jsstring :=
  List.concat (List.map (fun c => if cls c then to else [c]) s).

End JsString.
Export JsString.

(* ===================================================================== *)
(** * [crypto.createHash('sha256')]                                       *)
(* ===================================================================== *)

Module Sha256.

(** ** UTF-8 encoding of a string ([update(str, 'utf8')]) *)

Definition is_high_surrogate (c : N) : bool := N.leb 0xD800 c && N.leb c 0xDBFF.
Definition is_low_surrogate (c : N) : bool := N.leb 0xDC00 c && N.leb c 0xDFFF.

(** The bytes of one code point. *)
Definition utf8_code_point (cp : N) : list N :=
  if N.ltb cp 0x80 then [cp]
  else if N.ltb cp 0x800 then
    [N.lor 0xC0 (N.shiftr cp 6); N.lor 0x80 (N.land cp 0x3F)]
  else if N.ltb cp 0x10000 then
    [N.lor 0xE0 (N.shiftr cp 12);
     N.lor 0x80 (N.land (N.shiftr cp 6) 0x3F);
     N.lor 0x80 (N.land cp 0x3F)]
  else
    [N.lor 0xF0 (N.shiftr cp 18);
     N.lor 0x80 (N.land (N.shiftr cp 12) 0x3F);
     N.lor 0x80 (N.land (N.shiftr cp 6) 0x3F);
     N.lor 0x80 (N.land cp 0x3F)].

(** A surrogate pair is one code point; a surrogate on its own is encoded
    as U+FFFD. [pending] is a high surrogate waiting for its partner. *)
Fixpoint utf8_scan (pending : option N) (s : jsstring) : list N :=
  match s with
  | [] =>
      match pending with
      | Some _ => utf8_code_point 0xFFFD
      | None => []
      end
  | c :: s' =>
      match pending with
      | Some h =>
          if is_low_surrogate c
          then utf8_code_point (0x10000 + (h - 0xD800) * 0x400 + (c - 0xDC00))
                 ++ utf8_scan None s'
          else utf8_code_point 0xFFFD ++
               (if is_high_surrogate c then utf8_scan (Some c) s'
                else utf8_code_point c ++ utf8_scan None s')
      | None =>
          if is_high_surrogate c then utf8_scan (Some c) s'
          else if is_low_surrogate c
               then utf8_code_point 0xFFFD ++ utf8_scan None s'
               else utf8_code_point c ++ utf8_scan None s'
      end
  end.

Definition utf8_encode (s : jsstring) : list N := utf8_scan None s.

(** ** The compression function (FIPS 180-4), on 32-bit words held in [Z] *)

Definition w32 (x : Z) : Z := x mod 2 ^ 32.
Definition add32 (x y : Z) : Z := w32 (x + y).
Definition rotr (n x : Z) : Z :=
  Z.lor (Z.shiftr x n) (w32 (Z.shiftl x (32 - n))).
Definition not32 (x : Z) : Z := 2 ^ 32 - 1 - x.

Definition Ch (x y z : Z) : Z := Z.lxor (Z.land x y) (Z.land (not32 x) z).
Definition Maj (x y z : Z) : Z :=
  Z.lxor (Z.lxor (Z.land x y) (Z.land x z)) (Z.land y z).
Definition Sigma0 (x : Z) : Z :=
  Z.lxor (Z.lxor (rotr 2 x) (rotr 13 x)) (rotr 22 x).
Definition Sigma1 (x : Z) : Z :=
  Z.lxor (Z.lxor (rotr 6 x) (rotr 11 x)) (rotr 25 x).
Definition sigma0 (x : Z) : Z :=
  Z.lxor (Z.lxor (rotr 7 x) (rotr 18 x)) (Z.shiftr x 3).
Definition sigma1 (x : Z) : Z :=
  Z.lxor (Z.lxor (rotr 17 x) (rotr 19 x)) (Z.shiftr x 10).

(** The constants are defined as FIPS 180-4 defines them: the first 32
    bits of the fractional parts of the cube roots (round constants) and of
    the square roots (initial hash value) of the first primes. *)
Definition is_prime (n : Z) : bool :=
  Z.leb 2 n
  && List.forallb (fun d => negb (Z.eqb (n mod Z.of_nat d) 0))
       (List.seq 2 (Z.to_nat n - 2)).

Definition primes_below (bound : nat) : list Z :=
  List.filter is_prime (List.map Z.of_nat (List.seq 0 bound)).

(** The integer cube root of [n], found bit by bit from bit [bits - 1]
    down; [r] is the part found so far. *)
Fixpoint cube_root_bits (bits : nat) (n r : Z) : Z :=
  match bits with
  | O => r
  | S b =>
      let c := r + 2 ^ Z.of_nat b in
      cube_root_bits b n (if Z.leb (c * c * c) n then c else r)
  end.

Definition frac_cube_root (p : Z) : Z :=
  cube_root_bits 36 (p * 2 ^ 96) 0 mod 2 ^ 32.

Definition frac_square_root (p : Z) : Z := Z.sqrt (p * 2 ^ 64) mod 2 ^ 32.

Definition K256 : list Z :=
  Eval vm_compute in List.map frac_cube_root (primes_below 312).

Definition H0 : list Z :=
  Eval vm_compute in List.map frac_square_root (primes_below 20).

Definition word_at (l : list Z) (i : nat) : Z := List.nth i l 0.

(** The message schedule: [sched] holds the words computed so far, newest
    first, so that W(t-2), W(t-7), W(t-15) and W(t-16) sit at fixed places. *)
Fixpoint extend_schedule (n : nat) (sched : list Z) : list Z :=
  match n with
  | O => sched
  | S n' =>
      let w := add32 (add32 (sigma1 (word_at sched 1)) (word_at sched 6))
                     (add32 (sigma0 (word_at sched 14)) (word_at sched 15)) in
      extend_schedule n' (w :: sched)
  end.

Definition schedule (block : list Z) : list Z :=
  List.rev (extend_schedule 48 (List.rev block)).

(** One round on the working variables [a..h]. *)
Definition round (v : list Z) (kw : Z * Z) : list Z :=
  let a := word_at v 0 in let b := word_at v 1 in
  let c := word_at v 2 in let d := word_at v 3 in
  let e := word_at v 4 in let f := word_at v 5 in
  let g := word_at v 6 in let h := word_at v 7 in
  let t1 := add32 (add32 (add32 h (Sigma1 e)) (add32 (Ch e f g) (fst kw)))
                  (snd kw) in
  let t2 := add32 (Sigma0 a) (Maj a b c) in
  [add32 t1 t2; a; b; c; add32 d t1; e; f; g].

Definition compress (h : list Z) (block : list Z) : list Z :=
  let v := List.fold_left round (List.combine K256 (schedule block)) h in
  List.map (fun i => add32 (word_at h i) (word_at v i)) (List.seq 0 8).

(** ** Padding and parsing into 16-word blocks *)

Definition be_bytes (width : nat) (x : Z) : list Z :=
  List.map (fun i => (Z.shiftr x (8 * Z.of_nat (width - 1 - i))) mod 256)
           (List.seq 0 width).

Definition pad (msg : list Z) : list Z :=
  let len := Z.of_nat (List.length msg) in
  let zeros := Z.to_nat ((55 - len) mod 64) in
  msg ++ [0x80] ++ List.repeat 0 zeros ++ be_bytes 8 (8 * len).

Fixpoint words_of_bytes (bs : list Z) : list Z :=
  match bs with
  | b0 :: b1 :: b2 :: b3 :: rest =>
      (b0 * 2 ^ 24 + b1 * 2 ^ 16 + b2 * 2 ^ 8 + b3) :: words_of_bytes rest
  | _ => []
  end.

(** Consume the words sixteen at a time. [fuel] bounds the number of
    blocks; the caller passes the number of words, which is enough. *)
Fixpoint hash_blocks (fuel : nat) (h : list Z) (ws : list Z) : list Z :=
  match fuel, ws with
  | S fuel', _ :: _ =>
      hash_blocks fuel' (compress h (List.firstn 16 ws)) (List.skipn 16 ws)
  | _, _ => h
  end.

Definition digest_words (msg : list Z) : list Z :=
  let ws := words_of_bytes (pad msg) in
  hash_blocks (List.length ws) H0 ws.

(** ** [digest('hex')] *)

Definition hex_digit (n : Z) : N :=
  if Z.ltb n 10 then Z.to_N (48 + n) else Z.to_N (87 + n).

Definition hex_word (w : Z) : jsstring :=
  List.map (fun i => hex_digit ((Z.shiftr w (4 * Z.of_nat (7 - i))) mod 16))
           (List.seq 0 8).

Definition hex_digest (h : list Z) : jsstring :=
  List.concat (List.map (fun i => hex_word (word_at h i)) (List.seq 0 8)).

(** [crypto.createHash('sha256').update(str, 'utf8').digest('hex')]. *)
Definition sha256_hex (str : jsstring) : jsstring :=
  hex_digest (digest_words (List.map Z.of_N (utf8_encode str))).

End Sha256.

Example sha256_constants :
  List.length Sha256.K256 = 64%nat /\ List.length Sha256.H0 = 8%nat /\
  List.nth 0 Sha256.K256 0 = 0x428a2f98 /\
  List.nth 63 Sha256.K256 0 = 0xc67178f2 /\
  List.nth 0 Sha256.H0 0 = 0x6a09e667 /\ List.nth 7 Sha256.H0 0 = 0x5be0cd19.
Proof. conj_split; reflexivity. Qed.

Example sha256_empty :
  Sha256.sha256_hex [] =
  lit "e3b0c44298fc1c149afbf4c8996fb92427ae41e4649b934ca495991b7852b855".
Proof. vm_compute. reflexivity. Qed.

Example sha256_abc :
  Sha256.sha256_hex (lit "abc") =
  lit "ba7816bf8f01cfea414140de5dae2223b00361a396177a9cb410ff61f20015ad".
Proof. vm_compute. reflexivity. Qed.

Example sha256_foobar :
  Sha256.sha256_hex (lit "foobar") =
  lit "c3ab8ff13720e8ad9047dd39466b3c8974e592c2fa383d4a3960714caef0c4f2".
Proof. vm_compute. reflexivity. Qed.

Example sha256_two_blocks :
  Sha256.sha256_hex
    (lit "abcdbcdecdefdefgefghfghighijhijkijkljklmklmnlmnomnopnopq") =
  lit "248d6a61d20638b8e5c026930c3e6039a33ce45964ff2167f6ecedd419db06c1".
Proof. vm_compute. reflexivity. Qed.

Example utf8_encode_samples :
  Sha256.utf8_encode [0xE9%N] = [0xC3; 0xA9]%N /\
  Sha256.utf8_encode [0x20AC%N] = [0xE2; 0x82; 0xAC]%N /\
  Sha256.utf8_encode [0xD83D; 0xDE00]%N = [0xF0; 0x9F; 0x98; 0x80]%N /\
  Sha256.utf8_encode [0xDE00; 0x41]%N = [0xEF; 0xBF; 0xBD; 0x41]%N.
Proof. conj_split; reflexivity. Qed.

(* ===================================================================== *)
(** * [Date.prototype.toISOString]                                        *)
(* ===================================================================== *)

Module IsoDate.

(** [width] decimal digits of [n], most significant first. *)
Definition digits (width : nat) (n : Z) : jsstring :=
  List.map (fun i => Z.to_N (48 + (n / 10 ^ Z.of_nat (width - 1 - i)) mod 10))
           (List.seq 0 width).

Definition ms_per_day : Z := 86400000.

(** Year, month and day of the proleptic Gregorian calendar for a number
    of days since 1970-01-01. *)
Definition civil_from_days (days : Z) : Z * Z * Z :=
  let z := days + 719468 in
  let era := z / 146097 in
  let doe := z - era * 146097 in
  let yoe := (doe - doe / 1460 + doe / 36524 - doe / 146096) / 365 in
  let doy := doe - (365 * yoe + yoe / 4 - yoe / 100) in
  let mp := (5 * doy + 2) / 153 in
  let d := doy - (153 * mp + 2) / 5 + 1 in
  let m := if Z.ltb mp 10 then mp + 3 else mp - 9 in
  let y := yoe + era * 400 + (if Z.leb m 2 then 1 else 0) in
  (y, m, d).

(** The year field: four digits from 0 to 9999, otherwise a sign and six
    digits. *)
Definition year_field (y : Z) : jsstring :=
  if Z.leb 0 y && Z.leb y 9999 then digits 4 y
  else (if Z.ltb y 0 then lit "-" else lit "+") ++ digits 6 (Z.abs y).

(** [new Date(t).toISOString()] for a time value [t], in milliseconds
    since the epoch: [YYYY-MM-DDTHH:mm:ss.sssZ]. *)
Definition toISOString (t : Z) : jsstring :=
  let '(y, m, d) := civil_from_days (t / ms_per_day) in
  let r := t mod ms_per_day in
  year_field y ++ lit "-" ++ digits 2 m ++ lit "-" ++ digits 2 d ++ lit "T"
    ++ digits 2 (r / 3600000) ++ lit ":" ++ digits 2 (r / 60000 mod 60)
    ++ lit ":" ++ digits 2 (r / 1000 mod 60) ++ lit "."
    ++ digits 3 (r mod 1000) ++ lit "Z".

End IsoDate.

Example toISOString_epoch :
  IsoDate.toISOString 0 = lit "1970-01-01T00:00:00.000Z".
Proof. reflexivity. Qed.

Example toISOString_2023 :
  IsoDate.toISOString 1700000000123 = lit "2023-11-14T22:13:20.123Z".
Proof. vm_compute. reflexivity. Qed.

Example toISOString_leap_day :
  IsoDate.toISOString 951782400000 = lit "2000-02-29T00:00:00.000Z".
Proof. vm_compute. reflexivity. Qed.

Example toISOString_before_epoch :
  IsoDate.toISOString (-1) = lit "1969-12-31T23:59:59.999Z".
Proof. vm_compute. reflexivity. Qed.

(* ===================================================================== *)
(** * [path.join]                                                         *)
(* ===================================================================== *)

(** The program reaches the platform's path syntax through [path.join]
    only. *)
Class Platform := { path_join : jsstring -> jsstring -> jsstring }.

Module PosixPath.

Definition slash : N := 47.
Definition dot : jsstring := lit ".".
Definition dotdot : jsstring := lit "..".

Definition jsstring_eqb (a b : jsstring) : bool :=
  bool_decide (a = b).

(** [normalizeString]: drop empty and [.] segments and resolve [..]
    against the segment before it. [acc] holds the segments kept so far,
    last one first. *)
Fixpoint normalize_segments (allow_above_root : bool) (segs acc : list jsstring)
  : list jsstring :=
  match segs with
  | [] => List.rev acc
  | seg :: segs' =>
      if jsstring_eqb seg [] || jsstring_eqb seg dot
      then normalize_segments allow_above_root segs' acc
      else if jsstring_eqb seg dotdot then
        match acc with
        | prev :: acc' =>
            if jsstring_eqb prev dotdot
            then normalize_segments allow_above_root segs' (seg :: acc)
            else normalize_segments allow_above_root segs' acc'
        | [] =>
            if allow_above_root
            then normalize_segments allow_above_root segs' [seg]
            else normalize_segments allow_above_root segs' acc
        end
      else normalize_segments allow_above_root segs' (seg :: acc)
  end.

(** [path.posix.normalize]. *)
Definition normalize (p : jsstring) : jsstring :=
  match p with
  | [] => dot
  | first :: _ =>
      let is_absolute := N.eqb first slash in
      let trailing := N.eqb (List.last p 0%N) slash in
      let body :=
        join [slash]
          (normalize_segments (negb is_absolute) (split p [slash]) []) in
      match body with
      | [] => if is_absolute then [slash]
              else if trailing then lit "./" else dot
      | _ :: _ =>
          (if is_absolute then [slash] else [])
            ++ body ++ (if trailing then [slash] else [])
      end
  end.

(** [path.posix.join] of two arguments: the non-empty ones are joined by a
    slash and the result is normalized. *)
Definition join2 (a b : jsstring) : jsstring :=
  match a, b with
  | [], [] => dot
  | [], _ => normalize b
  | _, [] => normalize a
  | _, _ => normalize (a ++ [slash] ++ b)
  end.

End PosixPath.

Definition posix : Platform := {| path_join := PosixPath.join2 |}.

Example posix_join_samples :
  PosixPath.join2 (lit "backups") (lit "a.tar.gz") = lit "backups/a.tar.gz" /\
  PosixPath.join2 (lit "./out/") (lit "a.txt") = lit "out/a.txt" /\
  PosixPath.join2 (lit "/var//data/../x") (lit "./f") = lit "/var/x/f" /\
  PosixPath.join2 (lit "../a") (lit "../../b") = lit "../../b" /\
  PosixPath.join2 [] [] = lit ".".
Proof. conj_split; vm_compute; reflexivity. Qed.

(* ===================================================================== *)
(** * The outside world and asynchronous computations                     *)
(* ===================================================================== *)

Module Node.

(** A thrown [Error]: the program only ever reads its [message]. *)
Record Error := mkError { message : jsstring }.

(** What a path names. A directory carries its listing, in the order in
    which [readdir] enumerates it. The listing is taken as given: the
    program only reads it, and the files that a run creates (an archive,
    the log) are not entered into the listing of any directory. *)
Inductive node :=
| File (content : jsstring)
| Dir (entries : list jsstring).

(** One argument of a [console] call. *)
Inductive console_arg :=
| Text (s : jsstring)
| Obj (e : Error).

(** The state of the world around one process.
    - [fs]: the file system; a file holds the text that reading it as
      UTF-8 yields;
    - [faults]: what goes wrong outside the program's control. Each call
      into [fs/promises] or [child_process] takes the next entry; [Some m]
      makes that call reject with an error of message [m]. A call into
      [fs/promises] that is made to fail has no effect; an archiver that
      fails may leave a partial archive behind;
    - [clock_now], [clock_next]: the time value read by the next
      [new Date()], and the readings after it;
    - [stdout], [stderr]: what [console.log], [console.error] and
      [process.stderr.write] have written, oldest first. *)
Record World := mkWorld {
  fs : gmap jsstring node;
  faults : list (option jsstring);
  clock_now : Z;
  clock_next : list Z;
  stdout : list (list console_arg);
  stderr : list (list console_arg)
}.

Definition set_fs (w : World) (m : gmap jsstring node) : World :=
  mkWorld m (faults w) (clock_now w) (clock_next w) (stdout w) (stderr w).
Definition set_faults (w : World) (f : list (option jsstring)) : World :=
  mkWorld (fs w) f (clock_now w) (clock_next w) (stdout w) (stderr w).

(** How an awaited promise settles. *)
Inductive outcome (A : Type) :=
| Ok (a : A)
| Throw (e : Error).
Arguments Ok {A} a.
Arguments Throw {A} e.

(** An asynchronous computation. *)
Definition M (A : Type) : Type := World -> outcome A * World.

Definition ret {A} (a : A) : M A := fun w => (Ok a, w).

Definition bind {A B} (c : M A) (k : A -> M B) : M B :=
  fun w =>
    match c w with
    | (Ok a, w') => k a w'
    | (Throw e, w') => (Throw e, w')
    end.

Definition throw {A} (e : Error) : M A := fun w => (Throw e, w).

(** [try { body } catch (error) { handler }]. *)
Definition try_catch {A} (body : M A) (handler : Error -> M A) : M A :=
  fun w =>
    match body w with
    | (Ok a, w') => (Ok a, w')
    | (Throw e, w') => handler e w'
    end.

(** What neither the program nor the plan of failures decides.
    - [first_rejection e es]: of the calls of one [Promise.all] that fail,
      with the errors [e :: es] in the order of the calls, the error of the
      call that fails first in time;
    - [partial_archive command m]: what an archiver that fails, run with
      [command] on the file system [m], leaves at the path of the archive:
      nothing, or a file with that content. *)
Class Outside := {
  first_rejection : Error -> list Error -> Error;
  first_rejection_among : forall e es, In (first_rejection e es) (e :: es);
  partial_archive : jsstring -> gmap jsstring node -> option jsstring
}.

(** [xs.map(f)]: the calls are made one after the other, in the order of
    [xs], whether or not an earlier one fails; the result lists how each of
    them settles. *)
Fixpoint settle_each {A B} (f : A -> M B) (xs : list A) (w : World)
  : list (outcome B) * World :=
  match xs with
  | [] => ([], w)
  | x :: xs' =>
      let (r, w1) := f x w in
      let (rs, w2) := settle_each f xs' w1 in
      (r :: rs, w2)
  end.

Fixpoint fulfilled {B} (rs : list (outcome B)) : list B :=
  match rs with
  | [] => []
  | Ok b :: rs' => b :: fulfilled rs'
  | Throw _ :: rs' => fulfilled rs'
  end.

Fixpoint rejected {B} (rs : list (outcome B)) : list Error :=
  match rs with
  | [] => []
  | Ok _ :: rs' => rejected rs'
  | Throw e :: rs' => e :: rejected rs'
  end.

(** [Promise.all(xs.map(f))]: every call is made; when all of them are
    fulfilled the results keep the order of [xs], otherwise the promise
    rejects with the error of the call that fails first in time. *)
Definition promise_all_map {outside : Outside} {A B}
    (f : A -> M B) (xs : list A) : M (list B) :=
  fun w =>
    let (rs, w') := settle_each f xs w in
    match rejected rs with
    | [] => (Ok (fulfilled rs), w')
    | e :: es => (Throw (first_rejection e es), w')
    end.

(** ** Services *)

(** A call that leaves the process: the next fault, if there is one, makes
    it reject; otherwise [act] runs on the file system. *)
Definition io {A} (act : gmap jsstring node -> outcome A * gmap jsstring node)
  : M A :=
  fun w =>
    match faults w with
    | Some m :: rest => (Throw (mkError m), set_faults w rest)
    | _ =>
        let (r, m') := act (fs w) in
        (r, set_fs (set_faults w (List.tail (faults w))) m')
    end.

Definition errno (code syscall p : jsstring) : Error :=
  mkError (code ++ lit ", " ++ syscall ++ lit " '" ++ p ++ lit "'").

(** [fs.readFile(p, 'utf-8')]. *)
Definition readFile (p : jsstring) : M jsstring :=
  io (fun m =>
    match m !! p with
    | Some (File c) => (Ok c, m)
    | Some (Dir _) =>
        (Throw (mkError (lit "EISDIR: illegal operation on a directory, read")), m)
    | None =>
        (Throw (errno (lit "ENOENT: no such file or directory") (lit "open") p), m)
    end).

(** [fs.readdir(p)]. *)
Definition readdir (p : jsstring) : M (list jsstring) :=
  io (fun m =>
    match m !! p with
    | Some (Dir names) => (Ok names, m)
    | Some (File _) =>
        (Throw (errno (lit "ENOTDIR: not a directory") (lit "scandir") p), m)
    | None =>
        (Throw (errno (lit "ENOENT: no such file or directory") (lit "scandir") p), m)
    end).

(** [fs.appendFile(p, data)]: the file is created when it is missing. *)
Definition appendFile (p data : jsstring) : M unit :=
  io (fun m =>
    match m !! p with
    | Some (File c) => (Ok tt, <[p := File (c ++ data)]> m)
    | Some (Dir _) =>
        (Throw (errno (lit "EISDIR: illegal operation on a directory")
                      (lit "open") p), m)
    | None => (Ok tt, <[p := File data]> m)
    end).

(** [fs.mkdir(p, { recursive: true })]: an existing directory is left as
    it is. Only the path [p] itself is looked at: the directories above it
    are taken to exist. *)
Definition mkdir_recursive (p : jsstring) : M unit :=
  io (fun m =>
    match m !! p with
    | Some (Dir _) => (Ok tt, m)
    | Some (File _) =>
        (Throw (errno (lit "EEXIST: file already exists") (lit "mkdir") p), m)
    | None => (Ok tt, <[p := Dir []]> m)
    end).

(** The bytes of an archive are of no concern to the program; this text
    stands for them. *)
Definition archive_image : jsstring := lit "<tar.gz>".

(** What an archiver that fails leaves behind. *)
Definition left_by_archiver {outside : Outside}
    (command archivePath : jsstring) (m : gmap jsstring node)
  : gmap jsstring node :=
  match partial_archive command m with
  | Some c => <[archivePath := File c]> m
  | None => m
  end.

(** [promisifiedExec(command)] for the [tar] command line built by
    [createArchive], which writes the archive [archivePath]. The archiver is
    a black box, and so is the shell that starts it: whether the call
    succeeds is for the plan of failures to say, whatever the reason of a
    failure (a destination that does not exist, a full disk, a command line
    that the shell reads otherwise). When it succeeds the archive is in
    place; when it fails, a partial archive may be. The paths are taken to
    hold nothing that the shell expands between double quotes. *)
Definition promisifiedExec_tar {outside : Outside}
    (command archivePath : jsstring) : M unit :=
  fun w =>
    match faults w with
    | Some m :: rest =>
        (Throw (mkError m),
         set_fs (set_faults w rest)
           (left_by_archiver command archivePath (fs w)))
    | _ =>
        (Ok tt,
         set_fs (set_faults w (List.tail (faults w)))
           (<[archivePath := File archive_image]> (fs w)))
    end.

(** The reading of the clock that follows the current one; the clock
    stands still once the readings are used up. *)
Definition next_reading (w : World) : Z :=
  match clock_next w with
  | t :: _ => t
  | [] => clock_now w
  end.

Definition tick (w : World) : World :=
  mkWorld (fs w) (faults w) (next_reading w) (List.tail (clock_next w))
          (stdout w) (stderr w).

Definition write_stdout (args : list console_arg) (w : World) : World :=
  mkWorld (fs w) (faults w) (clock_now w) (clock_next w)
          (stdout w ++ [args]) (stderr w).

Definition write_stderr (args : list console_arg) (w : World) : World :=
  mkWorld (fs w) (faults w) (clock_now w) (clock_next w)
          (stdout w) (stderr w ++ [args]).

(** [new Date()]: the current reading of the clock. *)
Definition new_Date : M Z := fun w => (Ok (clock_now w), tick w).

(** [console.log(...args)]. *)
Definition console_log (args : list console_arg) : M unit :=
  fun w => (Ok tt, write_stdout args w).

(** [console.error(...args)] and [process.stderr.write(s)] both write to
    the error stream. *)
Definition console_error (args : list console_arg) : M unit :=
  fun w => (Ok tt, write_stderr args w).

Definition process_stderr_write (s : jsstring) : M unit :=
  console_error [Text s].

End Node.
Export Node.

(** An outside where the failing calls of a [Promise.all] fail in the order
    in which they were made, and a failing archiver leaves nothing. *)
Definition orderly : Outside :=
  {| first_rejection e _ := e;
     first_rejection_among e es := or_introl eq_refl;
     partial_archive _ _ := None |}.

Lemma last_among (e : Error) es : In (List.last es e) (e :: es).
Proof.
  revert e. induction es as [|e1 es IH]; intros e; [left; reflexivity|].
  destruct es as [|e2 es]; [right; left; reflexivity|].
  change (List.last (e1 :: e2 :: es) e) with (List.last (e2 :: es) e).
  destruct (IH e) as [H|H]; [left; exact H|right; right; exact H].
Qed.

(** An outside where the call made last fails first, and a failing
    archiver leaves a truncated archive. *)
Definition untidy : Outside :=
  {| first_rejection e es := List.last es e;
     first_rejection_among := last_among;
     partial_archive _ _ := Some (lit "<tar.gz, truncated>") |}.

Notation "x <- c ;; k" := (bind c (fun x => k))
  (at level 100, c at next level, right associativity).
Notation "c ;; k" := (bind c (fun _ => k))
  (at level 100, right associativity).

(* ===================================================================== *)
(** * The program                                                         *)
(* ===================================================================== *)

Section Backup.

Context {platform : Platform} {outside : Outside}.

(** The log file where backup hashes are stored. *)
Definition logFilePath : jsstring := lit "backup_log.txt".

(** Calculates a SHA-256 checksum for a given string. *)
Definition calculateDirectoryChecksum (str : jsstring) : M jsstring :=
  ret (Sha256.sha256_hex str).

(** Retrieves the most recent backup hash from a log file: [Some] hash, or
    [None] for [null]. *)
Definition getLastBackupHash (logPath : jsstring) : M (option jsstring) :=
  try_catch
    (logFileContent <- readFile logPath ;;
     let logLines := split (trim logFileContent) ([line_feed]) in
     let lastHashLine :=
       List.find (fun line => includes line (lit "HASH:")) (List.rev logLines) in
     match lastHashLine with
     | None | Some [] => ret None
     | Some lastHashLine =>
         let lastHash :=
           option_map trim (List.nth_error (split lastHashLine (lit "HASH:")) 1) in
         ret lastHash
     end)
    (fun error =>
       console_error [Text (lit "Error reading log file:"); Obj error] ;;
       ret None).

Definition is_colon_or_dot (c : N) : bool := N.eqb c 58 || N.eqb c 46.
Definition is_backslash (c : N) : bool := N.eqb c 92.

(** The [try] block of [createArchive]; the arguments after [sourceDir] are
    the constants computed before it. *)
Definition createArchive_try
    (sourceDir timestamp normalizedSourceDir normalizedBackupFilePath : jsstring)
  : M unit :=
  let tarCommand :=
    lit "tar -czf " ++ [double_quote] ++ normalizedBackupFilePath
      ++ [double_quote] ++ lit " -C " ++ [double_quote]
      ++ normalizedSourceDir ++ [double_quote] ++ lit " ." in
  console_log [Text (lit "Running tar command: " ++ tarCommand)] ;;
  promisifiedExec_tar tarCommand normalizedBackupFilePath ;;
  files <- readdir sourceDir ;;
  console_log
    [Text (lit "Files in source directory: " ++ join (lit ",") files)] ;;
  fileContents <-
    promise_all_map (fun file => readFile (path_join sourceDir file)) files ;;
  checksum <- calculateDirectoryChecksum (join [] fileContents) ;;
  let successLog :=
    timestamp ++ lit ": SUCCESS: Backup created at "
      ++ normalizedBackupFilePath ++ lit ", HASH: " ++ checksum
      ++ [line_feed] in
  console_log [Text (lit "Writing success log: " ++ successLog)] ;;
  appendFile logFilePath successLog.

(** The [catch] block of [createArchive]. *)
Definition createArchive_catch (error : Error) : M unit :=
  now <- new_Date ;;
  let failedLog :=
    IsoDate.toISOString now ++ lit ": FAILED: " ++ message error
      ++ [line_feed] in
  console_error [Text (lit "Error occurred: " ++ message error)] ;;
  appendFile logFilePath failedLog ;;
  throw (mkError (lit "Failed to create backup, error = " ++ message error)).

(** Creates an archive from a source directory, stores it in a destination
    directory and logs the result to the log file. *)
Definition createArchive (sourceDir destinationDir : jsstring) : M unit :=
  now <- new_Date ;;
  let timestamp :=
    replace_class is_colon_or_dot (lit "-") (IsoDate.toISOString now) in
  let backupFilename := lit "backup-" ++ timestamp ++ lit ".tar.gz" in
  let backupFilePath := path_join destinationDir backupFilename in
  let normalizedSourceDir := replace_class is_backslash (lit "/") sourceDir in
  let normalizedBackupFilePath :=
    replace_class is_backslash (lit "/") backupFilePath in
  try_catch
    (createArchive_try sourceDir timestamp normalizedSourceDir
                       normalizedBackupFilePath)
    createArchive_catch.

(** [lastChecksum === newChecksum], for [lastChecksum : string | null]. *)
Definition strict_equal (lastChecksum : option jsstring) (newChecksum : jsstring)
  : bool :=
  match lastChecksum with
  | Some h => bool_decide (h = newChecksum)
  | None => false
  end.

(** The [try] block of [runBackup]. *)
Definition runBackup_try (sourceDir destinationDir : jsstring) : M unit :=
  files <- readdir sourceDir ;;
  newChecksum <- calculateDirectoryChecksum (join [] files) ;;
  lastChecksum <- getLastBackupHash logFilePath ;;
  if strict_equal lastChecksum newChecksum
  then console_log [Text (lit "No changes detected since last backup")]
  else
    mkdir_recursive destinationDir ;;
    createArchive sourceDir destinationDir.

(** The [catch] block of [runBackup]. *)
Definition runBackup_catch (error : Error) : M unit :=
  console_error
    [Text (lit "Error occurred during backup: " ++ message error)] ;;
  process_stderr_write
    (lit "Error occurred during backup: " ++ message error ++ [line_feed]).

(** Executes the backup process: compares the checksum of the current
    directory with the last backup and creates a new archive when they
    differ. *)
Definition runBackup (sourceDir destinationDir : jsstring) : M unit :=
  try_catch (runBackup_try sourceDir destinationDir) runBackup_catch.

End Backup.

(* ===================================================================== *)
(** * Facts about strings                                                 *)
(* ===================================================================== *)

Section StringFacts.

Implicit Types (s p sep cur : jsstring).

Lemma starts_with_app p s : starts_with p (p ++ s) = true.
Proof.
  induction p as [|a p IH]; [reflexivity|].
  simpl. rewrite N.eqb_refl. exact IH.
Qed.

Lemma starts_with_inv p s : starts_with p s = true -> exists r, s = p ++ r.
Proof.
  revert s. induction p as [|a p IH]; intros s H.
  - exists s. reflexivity.
  - destruct s as [|b s]; [discriminate|]. simpl in H.
    apply andb_prop in H as [Hab Hps]. apply N.eqb_eq in Hab. subst b.
    destruct (IH _ Hps) as [r ->]. exists r. reflexivity.
Qed.

Lemma includes_cons_false c s p :
  includes (c :: s) p = false ->
  starts_with p (c :: s) = false /\ includes s p = false.
Proof.
  cbn [includes]. intros H. apply orb_false_elim in H. exact H.
Qed.

Lemma includes_app_intro s1 p s2 : includes (s1 ++ p ++ s2) p = true.
Proof.
  induction s1 as [|c s1 IH].
  - destruct (p ++ s2) eqn:E; cbn [includes app];
      rewrite <- E, starts_with_app; reflexivity.
  - cbn [includes app]. rewrite IH. apply orb_true_r.
Qed.

(** ** [split] *)

Lemma split_scan_skip sep x rest cur :
  split_scan sep (x ++ rest) (List.length x) cur = split_scan sep rest O cur.
Proof.
  induction x as [|c x IH]; [reflexivity|]. exact IH.
Qed.

Lemma split_scan_no_match sep s cur :
  sep <> [] -> includes s sep = false ->
  split_scan sep s O cur = [List.rev cur ++ s].
Proof.
  intros Hsep. revert cur. induction s as [|c s IH]; intros cur H.
  - cbn. rewrite app_nil_r. reflexivity.
  - apply includes_cons_false in H as [Hst Hin].
    cbn [split_scan]. rewrite Hst, (IH _ Hin). cbn [List.rev].
    rewrite <- app_assoc. reflexivity.
Qed.

(** ** The marker of a hash field *)

Definition hash_marker : jsstring := lit "HASH:".

Lemma hash_marker_units : hash_marker = [72; 65; 83; 72; 58]%N.
Proof. reflexivity. Qed.

(** No proper suffix of the marker is a prefix of it: an occurrence that
    starts inside [x] and runs into a following marker lies within [x]. *)
Lemma marker_border_free x b :
  x <> [] ->
  starts_with hash_marker (x ++ hash_marker ++ b) = true ->
  starts_with hash_marker x = true.
Proof.
  rewrite hash_marker_units. intros Hx H.
  destruct x as [|x0 [|x1 [|x2 [|x3 [|x4 x]]]]]; [congruence| | | | |];
    cbn [app starts_with] in H |- *;
    repeat (let E := fresh "E" in
            apply andb_prop in H as [E H]; apply N.eqb_eq in E);
    subst; try discriminate.
  reflexivity.
Qed.

Lemma split_scan_first_marker a r cur :
  includes a hash_marker = false ->
  split_scan hash_marker (a ++ hash_marker ++ r) O cur =
  (List.rev cur ++ a) :: split_scan hash_marker r O [].
Proof.
  revert cur. induction a as [|c a IH]; intros cur H.
  - rewrite app_nil_r. cbn [app].
    change (hash_marker ++ r) with (72%N :: lit "ASH:" ++ r).
    cbn [split_scan].
    change (72%N :: lit "ASH:" ++ r) with (hash_marker ++ r).
    rewrite starts_with_app.
    change (Nat.pred (List.length hash_marker)) with (List.length (lit "ASH:")).
    rewrite split_scan_skip. reflexivity.
  - pose proof H as H'. apply includes_cons_false in H' as [Hst Hin].
    assert (starts_with hash_marker ((c :: a) ++ hash_marker ++ r) = false) as Hno.
    { destruct (starts_with hash_marker ((c :: a) ++ hash_marker ++ r)) eqn:E;
        [|reflexivity].
      apply marker_border_free in E; [congruence|discriminate]. }
    change ((c :: a) ++ hash_marker ++ r) with (c :: (a ++ hash_marker ++ r)) in *.
    cbn [split_scan]. rewrite Hno, (IH _ Hin). cbn [List.rev].
    rewrite <- app_assoc. reflexivity.
Qed.

(** The second piece of [line.split('HASH:')] is the text between the
    first marker and the next one, or the end of the line. *)
Lemma split_hash_field a f rest :
  includes a hash_marker = false ->
  includes f hash_marker = false ->
  rest = [] \/ starts_with hash_marker rest = true ->
  List.nth_error (split (a ++ hash_marker ++ f ++ rest) hash_marker) 1 = Some f.
Proof.
  intros Ha Hf Hrest.
  change (split (a ++ hash_marker ++ f ++ rest) hash_marker)
    with (split_scan hash_marker (a ++ hash_marker ++ f ++ rest) O []).
  rewrite (split_scan_first_marker _ _ _ Ha).
  destruct Hrest as [->|Hst].
  - rewrite app_nil_r, split_scan_no_match by (done || discriminate).
    reflexivity.
  - apply starts_with_inv in Hst as [r ->].
    rewrite (split_scan_first_marker _ _ _ Hf). reflexivity.
Qed.

(** ** [trim] *)

Lemma trim_start_white s :
  List.forallb is_white_space s = true -> trim_start s = [].
Proof.
  induction s as [|c s IH]; [reflexivity|].
  cbn [List.forallb trim_start]. intros H.
  apply andb_prop in H as [-> Hs]. exact (IH Hs).
Qed.

Lemma trim_white s : List.forallb is_white_space s = true -> trim s = [].
Proof.
  intros H. unfold trim. rewrite (trim_start_white _ H). reflexivity.
Qed.

(** A marker is not made of white space. *)
Lemma white_no_marker s :
  List.forallb is_white_space s = true -> includes s hash_marker = false.
Proof.
  induction s as [|c s IH]; [reflexivity|].
  cbn [List.forallb]. intros H. apply andb_prop in H as [Hc Hs].
  cbn [includes]. rewrite (IH Hs), orb_false_r.
  rewrite hash_marker_units. cbn [starts_with].
  destruct (N.eqb 72 c) eqn:E; [|reflexivity].
  apply N.eqb_eq in E. subst c. discriminate.
Qed.

(** ** The last element that satisfies a test *)

Lemma find_rev_last {A} (P : A -> bool) pre l post :
  P l = true -> List.Forall (fun x => P x = false) post ->
  List.find P (List.rev (pre ++ l :: post)) = Some l.
Proof.
  intros Hl Hpost. rewrite List.rev_app_distr. cbn [List.rev].
  rewrite <- app_assoc. cbn [app].
  assert (forall q rest, List.Forall (fun x => P x = false) q ->
            List.find P (q ++ l :: rest) = Some l) as Hskip.
  { induction q as [|x q IH]; intros rest Hq; cbn [app List.find].
    - rewrite Hl. reflexivity.
    - inversion Hq; subst. rewrite H1. apply IH. assumption. }
  apply Hskip. apply List.Forall_rev. exact Hpost.
Qed.

Lemma find_none_all {A} (P : A -> bool) xs :
  List.Forall (fun x => P x = false) xs -> List.find P xs = None.
Proof.
  induction 1 as [|x xs Hx _ IH]; [reflexivity|].
  cbn [List.find]. rewrite Hx. exact IH.
Qed.

End StringFacts.

(* ===================================================================== *)
(** * Reading the last recorded hash                                      *)
(* ===================================================================== *)

Section LastHash.

(** The lines that [getLastBackupHash] looks at. *)
Definition log_lines (content : jsstring) : list jsstring :=
  split (trim content) [line_feed].

(** A line without the marker is passed over. *)
Definition unmarked (line : jsstring) : Prop :=
  includes line hash_marker = false.

Lemma marked_not_empty a r : a ++ hash_marker ++ r <> [].
Proof.
  rewrite hash_marker_units. destruct a; discriminate.
Qed.

(** What [getLastBackupHash] makes of the lines it has read. *)
Definition hash_of_lines (lines : list jsstring) : option jsstring :=
  match List.find (fun line => includes line hash_marker) (List.rev lines) with
  | None | Some [] => None
  | Some line => option_map trim (List.nth_error (split line hash_marker) 1)
  end.

Lemma getLastBackupHash_read w w1 logPath content :
  readFile logPath w = (Ok content, w1) ->
  getLastBackupHash logPath w = (Ok (hash_of_lines (log_lines content)), w1).
Proof.
  intros Hread. unfold getLastBackupHash, try_catch, bind. rewrite Hread.
  unfold hash_of_lines, log_lines. change (lit "HASH:") with hash_marker.
  destruct (List.find _ _) as [[|c line]|]; reflexivity.
Qed.

(** The last marked line is the one that is looked at. *)
Lemma find_last_marked pre line post r :
  List.Forall unmarked post ->
  List.find (fun l => includes l hash_marker)
    (List.rev (pre ++ (line ++ hash_marker ++ r) :: post))
  = Some (line ++ hash_marker ++ r).
Proof.
  intros Hpost. apply find_rev_last; [apply includes_app_intro|exact Hpost].
Qed.

Lemma getLastBackupHash_read_error w w1 logPath e :
  readFile logPath w = (Throw e, w1) ->
  exists w', getLastBackupHash logPath w = (Ok None, w').
Proof.
  intros Hread. unfold getLastBackupHash, try_catch, bind. rewrite Hread.
  eexists. reflexivity.
Qed.

Lemma getLastBackupHash_no_marker w w1 logPath content :
  readFile logPath w = (Ok content, w1) ->
  List.Forall unmarked (log_lines content) ->
  getLastBackupHash logPath w = (Ok None, w1).
Proof.
  intros Hread Hall. rewrite (getLastBackupHash_read _ _ _ _ Hread).
  unfold hash_of_lines. rewrite find_none_all; [reflexivity|].
  apply List.Forall_rev. exact Hall.
Qed.

Lemma readFile_missing w logPath :
  fs w !! logPath = None -> exists e w1, readFile logPath w = (Throw e, w1).
Proof.
  intros Hnone. unfold readFile, io.
  destruct (faults w) as [|[m|] rest]; rewrite ?Hnone; eauto.
Qed.

(** The situations in which there is no hash to read: the log file is
    missing, reading it fails, it is empty, or none of its lines carries
    the marker. *)
Definition nothing_recorded (w : World) (logPath : jsstring) : Prop :=
  fs w !! logPath = None
  \/ (exists e w1, readFile logPath w = (Throw e, w1))
  \/ (exists w1, readFile logPath w = (Ok [], w1))
  \/ (exists content w1,
        readFile logPath w = (Ok content, w1) /\
        List.Forall unmarked (log_lines content)).

(** C2. On a log with several lines that contain [HASH:],
    [getLastBackupHash] returns the trimmed hash text of the matching line
    closest to the end of the file, whatever the lines before it hold and
    passing over the later lines without the marker. The hash text of a
    line is what follows its first [HASH:], up to the end of the line or to
    a further [HASH:]. *)
Theorem getLastBackupHash_last_marked_line
    w w1 logPath content pre line post a f rest :
  readFile logPath w = (Ok content, w1) ->
  log_lines content = pre ++ line :: post ->
  List.Forall unmarked post ->
  line = a ++ hash_marker ++ f ++ rest ->
  unmarked a -> unmarked f ->
  rest = [] \/ starts_with hash_marker rest = true ->
  getLastBackupHash logPath w = (Ok (Some (trim f)), w1).
Proof.
  intros Hread Hlines Hpost -> Ha Hf Hrest.
  rewrite (getLastBackupHash_read _ _ _ _ Hread), Hlines.
  unfold hash_of_lines. rewrite (find_last_marked _ _ _ _ Hpost).
  destruct (a ++ hash_marker ++ f ++ rest) as [|c line'] eqn:E.
  - apply marked_not_empty in E. contradiction.
  - rewrite <- E, (split_hash_field a f rest Ha Hf Hrest). reflexivity.
Qed.

(** C3. [getLastBackupHash] never raises: on every world and every log
    path it settles with a value, and that value is [null] when the log
    file does not exist, a read error occurs, the file is empty, or no line
    contains [HASH:]. *)
Theorem getLastBackupHash_never_raises w logPath :
  (exists h w', getLastBackupHash logPath w = (Ok h, w')) /\
  (nothing_recorded w logPath ->
   exists w', getLastBackupHash logPath w = (Ok None, w')).
Proof.
  split.
  - unfold getLastBackupHash, try_catch.
    match goal with |- context [bind ?c ?k w] => destruct (bind c k w) as [[h|e] w'] end.
    + eauto.
    + eexists _, _. reflexivity.
  - intros [Hmiss|[(e & w1 & Hthrow)|[(w1 & Hempty)|(content & w1 & Hread & Hall)]]].
    + apply readFile_missing in Hmiss as (e & w1 & Hthrow).
      eapply getLastBackupHash_read_error, Hthrow.
    + eapply getLastBackupHash_read_error, Hthrow.
    + exists w1. apply (getLastBackupHash_no_marker _ _ _ _ Hempty).
      repeat constructor.
    + exists w1. apply (getLastBackupHash_no_marker _ _ _ _ Hread Hall).
Qed.

(** C9. When the last line that contains [HASH:] has nothing, or only
    white space, after it, [getLastBackupHash] returns the empty string and
    not [null]. *)
Theorem getLastBackupHash_empty_hash
    w w1 logPath content pre line post a b :
  readFile logPath w = (Ok content, w1) ->
  log_lines content = pre ++ line :: post ->
  List.Forall unmarked post ->
  line = a ++ hash_marker ++ b ->
  unmarked a ->
  List.forallb is_white_space b = true ->
  getLastBackupHash logPath w = (Ok (Some []), w1) /\
  fst (getLastBackupHash logPath w) <> Ok None.
Proof.
  intros Hread Hlines Hpost -> Ha Hb.
  assert (getLastBackupHash logPath w = (Ok (Some []), w1)) as Hres.
  { rewrite (getLastBackupHash_read _ _ _ _ Hread), Hlines.
    unfold hash_of_lines. rewrite (find_last_marked _ _ _ _ Hpost).
    destruct (a ++ hash_marker ++ b) as [|c line'] eqn:E.
    - apply marked_not_empty in E. contradiction.
    - rewrite <- E, <- (app_nil_r b).
      rewrite (split_hash_field a b [] Ha (white_no_marker b Hb))
        by (left; reflexivity).
      cbn [option_map]. rewrite (trim_white b Hb). reflexivity. }
  split; [exact Hres|]. rewrite Hres. discriminate.
Qed.

End LastHash.

(* ===================================================================== *)
(** * Facts about the services                                            *)
(* ===================================================================== *)

Section ServiceFacts.

Context {outside : Outside}.

(** The text of the file at [p]; empty when there is no file. *)
Definition file_text (m : gmap jsstring node) (p : jsstring) : jsstring :=
  match m !! p with
  | Some (File c) => c
  | _ => []
  end.

(** The next call out of the process is not made to fail. *)
Definition no_fault (w : World) : Prop :=
  match faults w with
  | Some _ :: _ => False
  | _ => True
  end.

Lemma bind_Ok {A B} (c : M A) (k : A -> M B) w b w' :
  bind c k w = (Ok b, w') ->
  exists a w1, c w = (Ok a, w1) /\ k a w1 = (Ok b, w').
Proof.
  unfold bind. destruct (c w) as [[a|e] w1]; intros H; [eauto|discriminate].
Qed.

Lemma io_Ok {A} (act : gmap jsstring node -> outcome A * gmap jsstring node)
    w a w' :
  io act w = (Ok a, w') ->
  no_fault w /\ exists m', act (fs w) = (Ok a, m') /\ fs w' = m' /\
    clock_now w' = clock_now w /\ clock_next w' = clock_next w.
Proof.
  unfold io, no_fault.
  destruct (faults w) as [|[m|] rest]; try discriminate;
    destruct (act (fs w)) as [r m'] eqn:E; intros H; inversion H; subst;
    (split; [exact I|exists m'; cbn; auto]).
Qed.

Lemma readdir_Ok p w names w' :
  readdir p w = (Ok names, w') ->
  fs w !! p = Some (Dir names) /\ fs w' = fs w.
Proof.
  intros H. apply io_Ok in H as (_ & m' & Hact & Hfs & _).
  destruct (fs w !! p) as [[c|names']|]; inversion Hact as [[Hn Hm]];
    rewrite Hfs, <- Hm; split; reflexivity.
Qed.

Lemma readFile_Ok p w c w' :
  readFile p w = (Ok c, w') ->
  fs w !! p = Some (File c) /\ fs w' = fs w.
Proof.
  intros H. apply io_Ok in H as (_ & m' & Hact & Hfs & _).
  destruct (fs w !! p) as [[c'|names']|]; inversion Hact as [[Hn Hm]];
    rewrite Hfs, <- Hm; split; reflexivity.
Qed.

Lemma appendFile_Ok p data w w' :
  appendFile p data w = (Ok tt, w') ->
  fs w' = <[p := File (file_text (fs w) p ++ data)]> (fs w).
Proof.
  intros H. apply io_Ok in H as (_ & m' & Hact & Hfs & _).
  unfold file_text.
  destruct (fs w !! p) as [[c'|names']|]; inversion Hact as [Hm];
    rewrite Hfs, <- Hm; reflexivity.
Qed.

Lemma promisifiedExec_tar_Ok command archivePath w w' :
  promisifiedExec_tar command archivePath w = (Ok tt, w') ->
  fs w' = <[archivePath := File archive_image]> (fs w).
Proof.
  unfold promisifiedExec_tar.
  destruct (faults w) as [|[m|] rest]; intros H; inversion H; reflexivity.
Qed.

Lemma console_log_Ok args w r w' :
  console_log args w = (r, w') -> r = Ok tt /\ fs w' = fs w.
Proof. intros H. inversion H. split; reflexivity. Qed.

Lemma new_Date_Ok w r w' :
  new_Date w = (r, w') -> r = Ok (clock_now w) /\ fs w' = fs w.
Proof. intros H. inversion H. split; reflexivity. Qed.

(** A call that fails, or that only reads, leaves the file system as it
    is. *)
Lemma io_reads {A} (act : gmap jsstring node -> outcome A * gmap jsstring node)
    w r w' :
  (forall m, snd (act m) = m) -> io act w = (r, w') -> fs w' = fs w.
Proof.
  unfold io. intros Hact.
  destruct (faults w) as [|[m|] rest];
    try (pose proof (Hact (fs w)) as Hm; destruct (act (fs w)) as [r0 m0]);
    intros H; inversion H; subst; cbn in *; auto.
Qed.

Lemma readFile_reads p w r w' : readFile p w = (r, w') -> fs w' = fs w.
Proof.
  apply io_reads. intros m. destruct (m !! p) as [[c|names]|]; reflexivity.
Qed.

Lemma readdir_reads p w r w' : readdir p w = (r, w') -> fs w' = fs w.
Proof.
  apply io_reads. intros m. destruct (m !! p) as [[c|names]|]; reflexivity.
Qed.

(** The reads of a listing, all of them made: the file system is left as
    it is, and when none of them fails the results are the contents of the
    files, in the order of the listing. *)
Lemma settle_each_readFile (path_of : jsstring -> jsstring) files w rs w' :
  settle_each (fun file => readFile (path_of file)) files w = (rs, w') ->
  fs w' = fs w /\
  (rejected rs = [] ->
   List.Forall2 (fun file c => fs w !! path_of file = Some (File c))
                files (fulfilled rs)).
Proof.
  revert w rs. induction files as [|file files IH]; intros w rs H.
  - inversion H. split; [reflexivity|intros _; constructor].
  - cbn [settle_each] in H.
    destruct (readFile (path_of file) w) as [r w1] eqn:E1.
    destruct (settle_each (fun file => readFile (path_of file)) files w1)
      as [rs' w2] eqn:E2.
    inversion H; subst rs w2. apply IH in E2 as [F2 A2].
    pose proof (readFile_reads _ _ _ _ E1) as F1. rewrite F1 in F2, A2.
    split; [exact F2|].
    destruct r as [c|e]; cbn [rejected fulfilled]; [|discriminate].
    intros Hnone. apply readFile_Ok in E1 as [Hc _].
    constructor; [exact Hc|exact (A2 Hnone)].
Qed.

Lemma promise_all_map_readFile_Ok (path_of : jsstring -> jsstring)
    files w contents w' :
  promise_all_map (fun file => readFile (path_of file)) files w
    = (Ok contents, w') ->
  List.Forall2 (fun file c => fs w !! path_of file = Some (File c))
               files contents
  /\ fs w' = fs w.
Proof.
  unfold promise_all_map.
  destruct (settle_each (fun file => readFile (path_of file)) files w)
    as [rs w1] eqn:E.
  apply settle_each_readFile in E as [F A].
  destruct (rejected rs) as [|e es]; intros H; inversion H; subst.
  split; [exact (A eq_refl)|exact F].
Qed.

Lemma promise_all_map_readFile_reads (path_of : jsstring -> jsstring)
    files w r w' :
  promise_all_map (fun file => readFile (path_of file)) files w = (r, w') ->
  fs w' = fs w.
Proof.
  unfold promise_all_map.
  destruct (settle_each (fun file => readFile (path_of file)) files w)
    as [rs w1] eqn:E.
  apply settle_each_readFile in E as [F _].
  destruct (rejected rs) as [|e es]; intros H; inversion H; subst; exact F.
Qed.

(** A [Promise.all] rejects with the error of one of its calls. *)
Lemma promise_all_map_Throw {A B} (f : A -> M B) xs w e w' :
  promise_all_map f xs w = (Throw e, w') ->
  In e (rejected (fst (settle_each f xs w))).
Proof.
  unfold promise_all_map.
  destruct (settle_each f xs w) as [rs w1]. cbn [fst].
  destruct (rejected rs) as [|e1 es]; intros H; inversion H.
  apply first_rejection_among.
Qed.

End ServiceFacts.

(* ===================================================================== *)
(** * Archiving and the audit trail                                       *)
(* ===================================================================== *)

Ltac world_simpl :=
  cbn [fs faults clock_now clock_next stdout stderr
       tick write_stdout write_stderr set_fs set_faults fst snd].

Section Archive.

Context {platform : Platform} {outside : Outside}.

(** The time stamp that names an archive made at time [t]. *)
Definition archive_timestamp (t : Z) : jsstring :=
  replace_class is_colon_or_dot (lit "-") (IsoDate.toISOString t).

(** The path of the archive made at time [t], as handed to [tar]. *)
Definition archive_path (destinationDir : jsstring) (t : Z) : jsstring :=
  replace_class is_backslash (lit "/")
    (path_join destinationDir
       (lit "backup-" ++ archive_timestamp t ++ lit ".tar.gz")).

(** The two kinds of entry that [createArchive] appends to the log. *)
Definition success_entry (timestamp archivePath checksum : jsstring)
  : jsstring :=
  timestamp ++ lit ": SUCCESS: Backup created at " ++ archivePath
    ++ lit ", HASH: " ++ checksum ++ [line_feed].

Definition failed_entry (isoTime msg : jsstring) : jsstring :=
  isoTime ++ lit ": FAILED: " ++ msg ++ [line_feed].

(** What [createArchive] throws after it has logged a failure. *)
Definition backup_failure (msg : jsstring) : Error :=
  mkError (lit "Failed to create backup, error = " ++ msg).

(** The file system with one more entry at the end of the log. *)
Definition log_appended (m : gmap jsstring node) (entry : jsstring)
  : gmap jsstring node :=
  <[logFilePath := File (file_text m logFilePath ++ entry)]> m.

(** The [catch] block either logs the failure and throws
    [backup_failure], or fails to append and lets that error through. It
    never completes normally. *)
Lemma createArchive_catch_inv error w r w' :
  createArchive_catch error w = (r, w') ->
  exists t w1, fs w1 = fs w /\
    ((appendFile logFilePath
        (failed_entry (IsoDate.toISOString t) (message error)) w1
        = (Ok tt, w')
      /\ r = Throw (backup_failure (message error)))
     \/ (exists e,
           appendFile logFilePath
             (failed_entry (IsoDate.toISOString t) (message error)) w1
             = (Throw e, w')
           /\ r = Throw e)).
Proof.
  unfold createArchive_catch, bind. intros H.
  destruct (new_Date w) as [rd wd] eqn:Hd.
  apply new_Date_Ok in Hd as [-> Hfsd].
  destruct (console_error
              [Text (lit "Error occurred: " ++ message error)] wd)
    as [rc wc] eqn:Hc.
  assert (rc = Ok tt /\ fs wc = fs wd) as [-> Hfsc]
    by (inversion Hc; split; reflexivity).
  exists (clock_now w), wc. split; [congruence|].
  unfold failed_entry.
  match type of H with
  | context [appendFile ?p ?d wc] =>
      destruct (appendFile p d wc) as [[[]|e] wa] eqn:Ha
  end.
  - left. inversion H; subst. split; reflexivity.
  - right. exists e. inversion H; subst. split; reflexivity.
Qed.

(** What a completed [try] block has done. *)
Lemma createArchive_try_Ok sourceDir timestamp normalizedSourceDir archivePath
    w w' :
  createArchive_try sourceDir timestamp normalizedSourceDir archivePath w
    = (Ok tt, w') ->
  let archived := <[archivePath := File archive_image]> (fs w) in
  exists files contents,
    archived !! sourceDir = Some (Dir files) /\
    List.Forall2
      (fun file c => archived !! path_join sourceDir file = Some (File c))
      files contents /\
    fs w' =
      log_appended archived
        (success_entry timestamp archivePath
           (Sha256.sha256_hex (join [] contents))).
Proof.
  intros H archived. unfold createArchive_try in H.
  apply bind_Ok in H as ([] & w1 & H1 & H). apply console_log_Ok in H1 as [_ F1].
  apply bind_Ok in H as ([] & w2 & H2 & H).
  apply promisifiedExec_tar_Ok in H2 as F2. rewrite F1 in F2.
  apply bind_Ok in H as (files & w3 & H3 & H).
  apply readdir_Ok in H3 as [L3 F3]. rewrite F2 in L3. rewrite F2 in F3.
  apply bind_Ok in H as ([] & w4 & H4 & H). apply console_log_Ok in H4 as [_ F4].
  rewrite F3 in F4.
  apply bind_Ok in H as (contents & w5 & H5 & H).
  apply promise_all_map_readFile_Ok in H5 as [L5 F5]. rewrite F4 in L5, F5.
  apply bind_Ok in H as (checksum & w6 & H6 & H).
  inversion H6; subst checksum w6.
  apply bind_Ok in H as ([] & w7 & H7 & H). apply console_log_Ok in H7 as [_ F7].
  rewrite F5 in F7.
  apply appendFile_Ok in H. rewrite F7 in H.
  exists files, contents. split; [exact L3|]. split; [exact L5|exact H].
Qed.

Lemma createArchive_unfold sourceDir destinationDir :
  createArchive sourceDir destinationDir =
  (now <- new_Date ;;
   try_catch
     (createArchive_try sourceDir (archive_timestamp now)
        (replace_class is_backslash (lit "/") sourceDir)
        (archive_path destinationDir now))
     createArchive_catch).
Proof.
  unfold createArchive, archive_path, archive_timestamp. reflexivity.
Qed.

(** [createArchive] completes only when its [try] block does. *)
Lemma createArchive_Ok sourceDir destinationDir w w' :
  createArchive sourceDir destinationDir w = (Ok tt, w') ->
  exists w0, fs w0 = fs w /\
    createArchive_try sourceDir (archive_timestamp (clock_now w))
      (replace_class is_backslash (lit "/") sourceDir)
      (archive_path destinationDir (clock_now w)) w0 = (Ok tt, w').
Proof.
  rewrite createArchive_unfold. unfold bind. intros H.
  destruct (new_Date w) as [rd w0] eqn:Hd.
  apply new_Date_Ok in Hd as [-> Hfs0].
  exists w0. split; [exact Hfs0|].
  unfold try_catch in H.
  destruct (createArchive_try sourceDir (archive_timestamp (clock_now w))
              (replace_class is_backslash (lit "/") sourceDir)
              (archive_path destinationDir (clock_now w)) w0)
    as [[[]|e] wt] eqn:Ht.
  - exact H.
  - apply createArchive_catch_inv in H
      as (t & w1 & _ & [[_ Hr]|(e' & _ & Hr)]); discriminate.
Qed.

(** [createArchive] throws only out of its [catch] block, entered with the
    error [cause] of the [try] block. *)
Lemma createArchive_Throw sourceDir destinationDir w e w' :
  createArchive sourceDir destinationDir w = (Throw e, w') ->
  exists w0 cause wt,
    fs w0 = fs w /\
    createArchive_try sourceDir (archive_timestamp (clock_now w))
      (replace_class is_backslash (lit "/") sourceDir)
      (archive_path destinationDir (clock_now w)) w0 = (Throw cause, wt) /\
    createArchive_catch cause wt = (Throw e, w').
Proof.
  rewrite createArchive_unfold. unfold bind. intros H.
  destruct (new_Date w) as [rd w0] eqn:Hd.
  apply new_Date_Ok in Hd as [-> Hfs0].
  unfold try_catch in H.
  destruct (createArchive_try sourceDir (archive_timestamp (clock_now w))
              (replace_class is_backslash (lit "/") sourceDir)
              (archive_path destinationDir (clock_now w)) w0)
    as [[[]|cause] wt] eqn:Ht; [discriminate|].
  exists w0, cause, wt. auto.
Qed.

(** C4. The fingerprint recorded after a successful archive is the SHA-256
    hex digest of the UTF-8 encoding of the concatenation of the contents
    of the files of the source directory, in the order of its listing. The
    listing and the contents are those of the file system as the archiver
    left it. *)
Theorem createArchive_records_content_digest sourceDir destinationDir w w' :
  createArchive sourceDir destinationDir w = (Ok tt, w') ->
  let archivePath := archive_path destinationDir (clock_now w) in
  let archived := <[archivePath := File archive_image]> (fs w) in
  exists files contents,
    archived !! sourceDir = Some (Dir files) /\
    List.Forall2
      (fun file c => archived !! path_join sourceDir file = Some (File c))
      files contents /\
    fs w' =
      log_appended archived
        (success_entry (archive_timestamp (clock_now w)) archivePath
           (Sha256.sha256_hex (join [] contents))).
Proof.
  intros H archivePath archived.
  apply createArchive_Ok in H as (w0 & Hfs0 & Htry).
  apply createArchive_try_Ok in Htry. rewrite Hfs0 in Htry. exact Htry.
Qed.

(** The command line handed to the archiver. *)
Definition tar_command (archivePath normalizedSourceDir : jsstring)
  : jsstring :=
  lit "tar -czf " ++ [double_quote] ++ archivePath ++ [double_quote]
    ++ lit " -C " ++ [double_quote] ++ normalizedSourceDir ++ [double_quote]
    ++ lit " .".

(** [createArchive] reads the clock and runs its [try] block; when that
    throws, the [catch] block takes over in the world that the [try] block
    has left. *)
Lemma createArchive_run sourceDir destinationDir w :
  createArchive sourceDir destinationDir w =
  match
    createArchive_try sourceDir (archive_timestamp (clock_now w))
      (replace_class is_backslash (lit "/") sourceDir)
      (archive_path destinationDir (clock_now w)) (tick w)
  with
  | (Ok a, w') => (Ok a, w')
  | (Throw cause, wt) => createArchive_catch cause wt
  end.
Proof. rewrite createArchive_unfold. reflexivity. Qed.

(** The [catch] block, entered in the world [wt] with the error [cause],
    by what becomes of its append: it is made and the entry is the end of
    the log; or the plan of failures refuses it; or the log path is a
    directory. *)
Lemma createArchive_catch_cases cause wt :
  let entry :=
    failed_entry (IsoDate.toISOString (clock_now wt)) (message cause) in
  (no_fault wt ->
   (forall names, fs wt !! logFilePath <> Some (Dir names)) ->
   exists w',
     createArchive_catch cause wt
       = (Throw (backup_failure (message cause)), w') /\
     fs w' = log_appended (fs wt) entry)
  /\ (forall m rest,
        faults wt = Some m :: rest ->
        exists w',
          createArchive_catch cause wt = (Throw (mkError m), w') /\
          fs w' = fs wt)
  /\ (no_fault wt ->
      forall names,
        fs wt !! logFilePath = Some (Dir names) ->
        exists w',
          createArchive_catch cause wt
            = (Throw (errno (lit "EISDIR: illegal operation on a directory")
                        (lit "open") logFilePath), w') /\
          fs w' = fs wt).
Proof.
  intros entry. subst entry.
  unfold createArchive_catch, bind, new_Date, console_error, appendFile, io,
    throw, no_fault.
  world_simpl.
  unfold log_appended, file_text, failed_entry, backup_failure.
  conj_split.
  - intros Hno Hlog.
    destruct (faults wt) as [|[m|] rest]; try contradiction;
      (destruct (fs wt !! logFilePath) as [[c|names]|] eqn:E;
       [|exfalso; eapply Hlog; reflexivity|]);
      (eexists; split; [reflexivity|]; world_simpl; rewrite ?app_nil_l;
       reflexivity).
  - intros m rest Hfaults. rewrite Hfaults.
    eexists. split; reflexivity.
  - intros Hno names Hdir. rewrite Hdir.
    destruct (faults wt) as [|[m|] rest]; try contradiction;
      (eexists; split; reflexivity).
Qed.

(** The [try] block when the archiver fails: the error is the archiver's
    and nothing has happened but what the archiver did. *)
Lemma createArchive_try_archiver_fails
    sourceDir timestamp normalized archivePath w msg rest :
  faults w = Some msg :: rest ->
  exists wt,
    createArchive_try sourceDir timestamp normalized archivePath w
      = (Throw (mkError msg), wt) /\
    fs wt =
      left_by_archiver (tar_command archivePath normalized) archivePath (fs w) /\
    faults wt = rest /\ clock_now wt = clock_now w.
Proof.
  intros Hfaults.
  unfold createArchive_try, bind, console_log, promisifiedExec_tar, tar_command.
  world_simpl. rewrite Hfaults.
  eexists. split; [reflexivity|]. world_simpl. conj_split; reflexivity.
Qed.


(** C5, as the code has it. When the archiver fails with message [msg],
    [createArchive] adds nothing of its own to the file system but the log
    entry, and removes nothing: [remains] is the file system as the
    archiver left it, with the partial archive if there is one. When the
    append to the log is not refused, one entry is appended, the ISO time
    stamp of the failure followed by [": FAILED: "], [msg] and a line
    feed, and the error thrown carries [msg]. When the append is refused,
    by the plan of failures or because the log path is a directory, the
    error of the append is thrown and nothing is appended. *)
Theorem createArchive_archiver_failure sourceDir destinationDir w msg rest :
  faults w = Some msg :: rest ->
  let archivePath := archive_path destinationDir (clock_now w) in
  let remains :=
    left_by_archiver
      (tar_command archivePath (replace_class is_backslash (lit "/") sourceDir))
      archivePath (fs w) in
  let entry := failed_entry (IsoDate.toISOString (next_reading w)) msg in
  (List.hd None rest = None ->
   (forall names, remains !! logFilePath <> Some (Dir names)) ->
   exists w',
     createArchive sourceDir destinationDir w
       = (Throw (backup_failure msg), w') /\
     fs w' = log_appended remains entry)
  /\ (forall m rest',
        rest = Some m :: rest' ->
        exists w',
          createArchive sourceDir destinationDir w = (Throw (mkError m), w') /\
          fs w' = remains)
  /\ (List.hd None rest = None ->
      forall names,
        remains !! logFilePath = Some (Dir names) ->
        exists w',
          createArchive sourceDir destinationDir w
            = (Throw (errno (lit "EISDIR: illegal operation on a directory")
                        (lit "open") logFilePath), w') /\
          fs w' = remains).
Proof.
  intros Hfaults archivePath remains entry.
  destruct (createArchive_try_archiver_fails sourceDir
              (archive_timestamp (clock_now w))
              (replace_class is_backslash (lit "/") sourceDir)
              archivePath (tick w) msg rest Hfaults)
    as (wt & Htry & Hfs & Hplan & Hclock).
  cbn [fs clock_now tick] in Hfs, Hclock.
  rewrite createArchive_run. fold archivePath. rewrite Htry.
  destruct (createArchive_catch_cases (mkError msg) wt) as (Hmade & Hplanned & Hdir).
  cbn [message] in Hmade, Hplanned, Hdir.
  fold remains in Hfs. rewrite Hfs, Hclock in *. fold entry in Hmade.
  assert (List.hd None rest = None -> no_fault wt) as Hcalm.
  { unfold no_fault. rewrite Hplan.
    destruct rest as [|[m|] rest']; [trivial|discriminate|trivial]. }
  conj_split.
  - intros Hrest Hlog. exact (Hmade (Hcalm Hrest) Hlog).
  - intros m rest' ->. exact (Hplanned m rest' Hplan).
  - intros Hrest names Hlog. exact (Hdir (Hcalm Hrest) names Hlog).
Qed.

End Archive.

(* ===================================================================== *)
(** * The top-level run                                                   *)
(* ===================================================================== *)

Section Run.

Context {platform : Platform} {outside : Outside}.

(** What the [catch] block of [runBackup] writes to the error stream. *)
Definition failure_report (e : Error) : list (list console_arg) :=
  [[Text (lit "Error occurred during backup: " ++ message e)];
   [Text (lit "Error occurred during backup: " ++ message e ++ [line_feed])]].

(** C8. [runBackup] never raises: for every source and destination and in
    every world, whatever the calls to the file system and to the archiver
    do, it completes normally. When a step of its [try] block throws, the
    error is written twice to the error stream and goes no further. *)
Theorem runBackup_never_raises sourceDir destinationDir w :
  exists w',
    runBackup sourceDir destinationDir w = (Ok tt, w') /\
    (forall w1,
       runBackup_try sourceDir destinationDir w = (Ok tt, w1) -> w' = w1) /\
    (forall e w1,
       runBackup_try sourceDir destinationDir w = (Throw e, w1) ->
       stderr w' = stderr w1 ++ failure_report e /\ fs w' = fs w1).
Proof.
  unfold runBackup, try_catch.
  destruct (runBackup_try sourceDir destinationDir w) as [[[]|e] w1].
  - exists w1. split; [reflexivity|]. split.
    + intros w2 H. inversion H. reflexivity.
    + intros e w2 H. discriminate.
  - eexists. split; [reflexivity|]. split.
    + intros w2 H. discriminate.
    + intros e' w2 H. inversion H; subst e' w2.
      unfold runBackup_catch, process_stderr_write, bind, console_error.
      world_simpl. rewrite <- app_assoc. split; reflexivity.
Qed.

End Run.

(* ===================================================================== *)
(** * The grammar of log entries                                          *)
(* ===================================================================== *)

Module LogGrammar.

Definition is_digit (c : N) : bool := N.leb 48 c && N.leb c 57.

Definition is_hex_digit (c : N) : bool :=
  is_digit c || (N.leb 97 c && N.leb c 102).

(** One place of a fixed-width pattern: any digit, or a given code unit. *)
Inductive place :=
| Digit
| Unit (c : N).

(** Match a pattern against the beginning of a string and return what
    follows it. *)
Fixpoint strip_pattern (pat : list place) (s : jsstring) : option jsstring :=
  match pat, s with
  | [], _ => Some s
  | _ :: _, [] => None
  | Digit :: pat', c :: s' =>
      if is_digit c then strip_pattern pat' s' else None
  | Unit u :: pat', c :: s' =>
      if N.eqb u c then strip_pattern pat' s' else None
  end.

Definition digit_places (n : nat) : list place := List.repeat Digit n.
Definition unit_places (s : jsstring) : list place := List.map Unit s.

(** [-MM-DDTHH:mm:ss.sssZ], what follows the year. *)
Definition date_time_places : list place :=
  unit_places (lit "-") ++ digit_places 2 ++ unit_places (lit "-")
    ++ digit_places 2 ++ unit_places (lit "T") ++ digit_places 2
    ++ unit_places (lit ":") ++ digit_places 2 ++ unit_places (lit ":")
    ++ digit_places 2 ++ unit_places (lit ".") ++ digit_places 3
    ++ unit_places (lit "Z").

(** An ISO 8601 time stamp in UTC with milliseconds: a year of four digits,
    or a sign and a year of six digits. *)
Definition strip_iso8601 (s : jsstring) : option jsstring :=
  match strip_pattern (digit_places 4 ++ date_time_places) s with
  | Some rest => Some rest
  | None =>
      match strip_pattern
              (unit_places (lit "+") ++ digit_places 6 ++ date_time_places) s
      with
      | Some rest => Some rest
      | None =>
          strip_pattern
            (unit_places (lit "-") ++ digit_places 6 ++ date_time_places) s
      end
  end.

Definition ends_with (suffix s : jsstring) : bool :=
  starts_with (List.rev suffix) (List.rev s).

(** [..., HASH: <hex64>] at the end of [body]. *)
Definition has_hash_field (body : jsstring) : bool :=
  let n := List.length body in
  Nat.leb 72 n
  && starts_with (lit ", HASH: ") (List.skipn (n - 72) body)
  && List.forallb is_hex_digit (List.skipn (n - 64) body).

(** An entry of the log, with the line feed that ends it:
    [<ISO8601>: SUCCESS: Backup created at <path>, HASH: <hex64>] or
    [<ISO8601>: FAILED: <message>]. *)
Definition well_formed_entry (entry : jsstring) : bool :=
  match strip_iso8601 entry with
  | None => false
  | Some rest =>
      ends_with [line_feed] rest
      && (starts_with (lit ": FAILED: ") rest
          || (starts_with (lit ": SUCCESS: Backup created at ") rest
              && has_hash_field (List.removelast rest)))
  end.

End LogGrammar.

Example well_formed_entry_samples :
  LogGrammar.well_formed_entry
    (lit "2023-11-14T22:13:20.456Z: FAILED: disk full" ++ [line_feed]) = true
  /\ LogGrammar.well_formed_entry
       (lit "2023-11-14T22:13:20.123Z: SUCCESS: Backup created at b/x.tar.gz, HASH: "
          ++ Sha256.sha256_hex (lit "foo") ++ [line_feed]) = true
  /\ LogGrammar.well_formed_entry
       (lit "2023-11-14T22:13:20.123Z: SUCCESS: Backup created at b/x.tar.gz, HASH: 2c26"
          ++ [line_feed]) = false
  /\ LogGrammar.well_formed_entry (lit "yesterday: FAILED: disk full" ++ [line_feed])
     = false.
Proof. conj_split; vm_compute; reflexivity. Qed.

Section GrammarFacts.

Import LogGrammar.

(** [s] is made of [n] digits. *)
Definition digit_string (n : nat) (s : jsstring) : Prop :=
  List.length s = n /\ List.Forall (fun c => is_digit c = true) s.

Lemma digits_digit_string width n : digit_string width (IsoDate.digits width n).
Proof.
  unfold digit_string, IsoDate.digits. split.
  - rewrite List.length_map, List.length_seq. reflexivity.
  - apply List.Forall_map, List.Forall_forall. intros i _.
    pose proof (Z.mod_pos_bound (n / 10 ^ Z.of_nat (width - 1 - i)) 10 eq_refl).
    unfold is_digit. apply andb_true_intro. split; apply N.leb_le; lia.
Qed.

Lemma strip_digits_app n s pat r :
  digit_string n s ->
  strip_pattern (digit_places n ++ pat) (s ++ r) = strip_pattern pat r.
Proof.
  intros [Hlen Hall]. subst n. induction Hall as [|c s Hc _ IH]; [reflexivity|].
  cbn [List.length digit_places List.repeat app strip_pattern]. rewrite Hc.
  exact IH.
Qed.

Lemma strip_units_app u pat r :
  strip_pattern (unit_places u ++ pat) (u ++ r) = strip_pattern pat r.
Proof.
  induction u as [|c u IH]; [reflexivity|].
  cbn [unit_places List.map app strip_pattern]. rewrite N.eqb_refl. exact IH.
Qed.

Lemma strip_units_end u r : strip_pattern (unit_places u) (u ++ r) = Some r.
Proof.
  rewrite <- (app_nil_r (unit_places u)), strip_units_app.
  destruct r; reflexivity.
Qed.

(** The shape of [toISOString]: a year, then the date and the time in
    fields of fixed width. *)
Definition year_shape (year : jsstring) : Prop :=
  digit_string 4 year
  \/ (exists ds, year = lit "+" ++ ds /\ digit_string 6 ds)
  \/ (exists ds, year = lit "-" ++ ds /\ digit_string 6 ds).

Lemma toISOString_shape t :
  exists year mo d h mi sec ms,
    IsoDate.toISOString t =
      year ++ lit "-" ++ mo ++ lit "-" ++ d ++ lit "T" ++ h ++ lit ":" ++ mi
        ++ lit ":" ++ sec ++ lit "." ++ ms ++ lit "Z"
    /\ year_shape year /\ digit_string 2 mo /\ digit_string 2 d
    /\ digit_string 2 h /\ digit_string 2 mi /\ digit_string 2 sec
    /\ digit_string 3 ms.
Proof.
  unfold IsoDate.toISOString.
  destruct (IsoDate.civil_from_days (t / IsoDate.ms_per_day)) as [[y m] d].
  eexists (IsoDate.year_field y), _, _, _, _, _, _.
  split; [reflexivity|].
  split; [|repeat split; apply digits_digit_string].
  unfold year_shape, IsoDate.year_field.
  destruct (Z.leb 0 y && Z.leb y 9999).
  - left. apply digits_digit_string.
  - destruct (Z.ltb y 0).
    + right. right. eexists. split; [reflexivity|apply digits_digit_string].
    + right. left. eexists. split; [reflexivity|apply digits_digit_string].
Qed.

Lemma digit_string_head n s :
  digit_string (S n) s -> exists c s', s = c :: s' /\ is_digit c = true.
Proof.
  intros [Hlen Hall]. destruct s as [|c s']; [discriminate|].
  inversion Hall; subst. eauto.
Qed.

(** Every time stamp that [toISOString] produces is recognised. *)
Lemma strip_iso8601_toISOString t rest :
  strip_iso8601 (IsoDate.toISOString t ++ rest) = Some rest.
Proof.
  destruct (toISOString_shape t)
    as (year & mo & d & h & mi & sec & ms & -> & Hy & Hmo & Hd & Hh & Hmi & Hs & Hms).
  repeat rewrite <- app_assoc.
  assert (forall r,
    strip_pattern date_time_places
      (lit "-" ++ mo ++ lit "-" ++ d ++ lit "T" ++ h ++ lit ":" ++ mi
         ++ lit ":" ++ sec ++ lit "." ++ ms ++ lit "Z" ++ r) = Some r) as Hrest.
  { intros r. unfold date_time_places.
    rewrite strip_units_app, (strip_digits_app 2 mo) by assumption.
    rewrite strip_units_app, (strip_digits_app 2 d) by assumption.
    rewrite strip_units_app, (strip_digits_app 2 h) by assumption.
    rewrite strip_units_app, (strip_digits_app 2 mi) by assumption.
    rewrite strip_units_app, (strip_digits_app 2 sec) by assumption.
    rewrite strip_units_app, (strip_digits_app 3 ms) by assumption.
    apply strip_units_end. }
  unfold strip_iso8601.
  destruct Hy as [Hy|[(ds & -> & Hds)|(ds & -> & Hds)]].
  - rewrite (strip_digits_app 4 year) by assumption. rewrite Hrest. reflexivity.
  - repeat rewrite <- app_assoc.
    replace (strip_pattern (digit_places 4 ++ date_time_places) _) with (@None jsstring)
      by reflexivity.
    rewrite strip_units_app, (strip_digits_app 6 ds) by assumption.
    rewrite Hrest. reflexivity.
  - repeat rewrite <- app_assoc.
    replace (strip_pattern (digit_places 4 ++ date_time_places) _) with (@None jsstring)
      by reflexivity.
    replace (strip_pattern (unit_places (lit "+") ++ _) _) with (@None jsstring)
      by reflexivity.
    rewrite strip_units_app, (strip_digits_app 6 ds) by assumption.
    apply Hrest.
Qed.


Lemma replace_class_app cls to a b :
  replace_class cls to (a ++ b)
  = replace_class cls to a ++ replace_class cls to b.
Proof.
  unfold replace_class. rewrite List.map_app, List.concat_app. reflexivity.
Qed.

Lemma digit_not_punctuation c :
  is_digit c = true ->
  is_colon_or_dot c = false /\ N.eqb 43 c = false /\ N.eqb 45 c = false.
Proof.
  unfold is_digit, is_colon_or_dot. intros H.
  apply andb_prop in H as [Hlo Hhi].
  apply N.leb_le in Hlo. apply N.leb_le in Hhi.
  split; [apply orb_false_intro|split]; apply N.eqb_neq; lia.
Qed.

Lemma replace_class_digits n s :
  digit_string n s -> replace_class is_colon_or_dot (lit "-") s = s.
Proof.
  intros [_ Hall]. induction Hall as [|c s Hc _ IH]; [reflexivity|].
  change (c :: s) with ([c] ++ s) at 1. rewrite replace_class_app, IH.
  unfold replace_class. cbn [List.map List.concat].
  destruct (digit_not_punctuation c Hc) as [-> _]. reflexivity.
Qed.

(** The time stamp of an archive has the shape of [toISOString] with
    dashes in the place of the colons and of the dot. *)
Lemma archive_timestamp_shape t :
  exists year mo d h mi sec ms,
    archive_timestamp t =
      year ++ lit "-" ++ mo ++ lit "-" ++ d ++ lit "T" ++ h ++ lit "-" ++ mi
        ++ lit "-" ++ sec ++ lit "-" ++ ms ++ lit "Z"
    /\ year_shape year /\ digit_string 2 mo /\ digit_string 2 d
    /\ digit_string 2 h.
Proof.
  unfold archive_timestamp.
  destruct (toISOString_shape t)
    as (year & mo & d & h & mi & sec & ms & -> & Hy & Hmo & Hd & Hh & Hmi & Hs & Hms).
  exists year, mo, d, h, mi, sec, ms.
  split; [|auto].
  repeat rewrite replace_class_app.
  rewrite (replace_class_digits 2 mo), (replace_class_digits 2 d),
    (replace_class_digits 2 h), (replace_class_digits 2 mi),
    (replace_class_digits 2 sec), (replace_class_digits 3 ms) by assumption.
  assert (replace_class is_colon_or_dot (lit "-") year = year) as ->.
  { destruct Hy as [Hy|[(ds & -> & Hds)|(ds & -> & Hds)]].
    - apply (replace_class_digits 4 year Hy).
    - rewrite replace_class_app, (replace_class_digits 6 ds Hds). reflexivity.
    - rewrite replace_class_app, (replace_class_digits 6 ds Hds). reflexivity. }
  reflexivity.
Qed.

(** No time stamp of an archive is an ISO 8601 time stamp. *)
Lemma strip_iso8601_archive_timestamp t rest :
  strip_iso8601 (archive_timestamp t ++ rest) = None.
Proof.
  destruct (archive_timestamp_shape t)
    as (year & mo & d & h & mi & sec & ms & -> & Hy & Hmo & Hd & Hh).
  repeat rewrite <- app_assoc.
  assert (forall r,
    strip_pattern date_time_places
      (lit "-" ++ mo ++ lit "-" ++ d ++ lit "T" ++ h ++ lit "-" ++ r) = None)
    as Hfail.
  { intros r. unfold date_time_places.
    rewrite strip_units_app, (strip_digits_app 2 mo) by assumption.
    rewrite strip_units_app, (strip_digits_app 2 d) by assumption.
    rewrite strip_units_app, (strip_digits_app 2 h) by assumption.
    reflexivity. }
  unfold strip_iso8601.
  destruct Hy as [Hy|[(ds & -> & Hds)|(ds & -> & Hds)]].
  - rewrite (strip_digits_app 4 year) by assumption. rewrite Hfail.
    destruct (digit_string_head _ _ Hy) as (c & s' & -> & Hc).
    destruct (digit_not_punctuation c Hc) as (_ & Hplus & Hminus).
    cbn [unit_places lit list_ascii_of_string List.map app strip_pattern].
    change (N_of_ascii "+") with 43%N. change (N_of_ascii "-") with 45%N.
    rewrite Hplus, Hminus. reflexivity.
  - repeat rewrite <- app_assoc.
    replace (strip_pattern (digit_places 4 ++ date_time_places) _) with (@None jsstring)
      by reflexivity.
    rewrite strip_units_app, (strip_digits_app 6 ds) by assumption.
    rewrite Hfail. reflexivity.
  - repeat rewrite <- app_assoc.
    replace (strip_pattern (digit_places 4 ++ date_time_places) _) with (@None jsstring)
      by reflexivity.
    replace (strip_pattern (unit_places (lit "+") ++ _) _) with (@None jsstring)
      by reflexivity.
    rewrite strip_units_app, (strip_digits_app 6 ds) by assumption.
    apply Hfail.
Qed.

Lemma ends_with_app s suffix : ends_with suffix (s ++ suffix) = true.
Proof.
  unfold ends_with. rewrite List.rev_app_distr. apply starts_with_app.
Qed.

(** A FAILED entry is well formed, whatever the time and the message. *)
Lemma failed_entry_well_formed t msg :
  well_formed_entry (failed_entry (IsoDate.toISOString t) msg) = true.
Proof.
  unfold well_formed_entry, failed_entry.
  rewrite strip_iso8601_toISOString, starts_with_app.
  rewrite (app_assoc (lit ": FAILED: ")), ends_with_app. reflexivity.
Qed.

(** A SUCCESS entry is not, whatever the time, the path and the
    checksum. *)
Lemma success_entry_ill_formed t archivePath checksum :
  well_formed_entry (success_entry (archive_timestamp t) archivePath checksum)
  = false.
Proof.
  unfold well_formed_entry, success_entry.
  rewrite strip_iso8601_archive_timestamp. reflexivity.
Qed.

(** The checksum is made of 64 hexadecimal digits. *)
Lemma hex_digit_is_hex n :
  0 <= n < 16 -> is_hex_digit (Sha256.hex_digit n) = true.
Proof.
  intros Hn. unfold is_hex_digit, is_digit, Sha256.hex_digit.
  destruct (Z.ltb_spec n 10).
  - apply orb_true_intro. left.
    apply andb_true_intro. split; apply N.leb_le; lia.
  - apply orb_true_intro. right.
    apply andb_true_intro. split; apply N.leb_le; lia.
Qed.

Lemma sha256_hex_shape str :
  List.length (Sha256.sha256_hex str) = 64%nat /\
  List.Forall (fun c => is_hex_digit c = true) (Sha256.sha256_hex str).
Proof.
  unfold Sha256.sha256_hex, Sha256.hex_digest.
  generalize (Sha256.digest_words (List.map Z.of_N (Sha256.utf8_encode str))).
  intros h. split.
  - cbn [List.seq List.map List.concat]. repeat rewrite List.length_app.
    unfold Sha256.hex_word. repeat rewrite List.length_map. reflexivity.
  - apply List.Forall_concat, List.Forall_map, List.Forall_forall. intros i _.
    apply List.Forall_map, List.Forall_forall. intros k _.
    apply hex_digit_is_hex, Z.mod_pos_bound. reflexivity.
Qed.

End GrammarFacts.

(* ===================================================================== *)
(** * Runs on concrete worlds                                             *)
(* ===================================================================== *)

Module Scenario.

#[local] Existing Instance posix.
#[local] Existing Instance orderly.

Definition world_of (files : list (jsstring * node))
    (plan : list (option jsstring)) (now : Z) (later : list Z) : World :=
  mkWorld (list_to_map files) plan now later [] [].

(** A source directory [src] with the one file [a.txt], which holds
    [foo]; no log yet. *)
Definition one_file : list (jsstring * node) :=
  [(lit "src", Dir [lit "a.txt"]); (lit "src/a.txt", File (lit "foo"))].

(** A source directory with [a.txt] and [b.txt], which hold [foo] and
    [bar]. *)
Definition two_files : list (jsstring * node) :=
  [(lit "src", Dir [lit "a.txt"; lit "b.txt"]);
   (lit "src/a.txt", File (lit "foo"));
   (lit "src/b.txt", File (lit "bar"))].

(** 2023-11-14T22:13:20.123Z and one minute later. *)
Definition t0 : Z := 1700000000123.
Definition t1 : Z := 1700000060123.

Definition first_boot : World := world_of one_file [] t0 [t1].

Definition backup : M unit := runBackup (lit "src") (lit "backups").

Definition after_first_run : World := snd (backup first_boot).
Definition after_second_run : World := snd (backup after_first_run).

Definition first_entry : jsstring :=
  lit "2023-11-14T22-13-20-123Z: SUCCESS: Backup created at backups/backup-2023-11-14T22-13-20-123Z.tar.gz, HASH: 2c26b46b68ffc68ff99b453c1d30413413422d706483bfa0f98a5e886266e7ae"
    ++ [line_feed].

Definition second_entry : jsstring :=
  lit "2023-11-14T22-14-20-123Z: SUCCESS: Backup created at backups/backup-2023-11-14T22-14-20-123Z.tar.gz, HASH: 2c26b46b68ffc68ff99b453c1d30413413422d706483bfa0f98a5e886266e7ae"
    ++ [line_feed].

(** The archiver fails with [disk full]; in [disk_full] the append to the
    log that follows is refused as well. *)
Definition archiver_down : World :=
  world_of one_file [Some (lit "disk full")] t0 [t1].

Definition disk_full : World :=
  world_of one_file
    [Some (lit "disk full");
     Some (lit "ENOSPC: no space left on device, write")] t0 [t1].

(** The destination path is taken by a regular file. *)
Definition blocked_destination : World :=
  world_of (one_file ++ [(lit "backups", File (lit "reserved"))]) [] t0 [t1].

(** A log with two successful backups, a stray line between them and a
    failure after them. *)
Definition history : jsstring :=
  lit "2023-11-13T08-00-00-000Z: SUCCESS: Backup created at backups/backup-2023-11-13T08-00-00-000Z.tar.gz, HASH: 1111"
    ++ [line_feed] ++ lit "-- rotated --" ++ [line_feed]
    ++ lit "2023-11-14T08-00-00-000Z: SUCCESS: Backup created at backups/backup-2023-11-14T08-00-00-000Z.tar.gz, HASH: 2222"
    ++ [line_feed]
    ++ lit "2023-11-15T08:00:00.000Z: FAILED: disk full" ++ [line_feed].

Definition with_history : World :=
  world_of (one_file ++ [(logFilePath, File history)]) [] t0 [t1].

(** A log whose last marked line breaks off after the marker. *)
Definition truncated_history : jsstring :=
  lit "2023-11-13T08-00-00-000Z: SUCCESS: Backup created at backups/backup-2023-11-13T08-00-00-000Z.tar.gz, HASH: 1111"
    ++ [line_feed]
    ++ lit "2023-11-14T08-00-00-000Z: SUCCESS: Backup created at backups/x.tar.gz, HASH:   "
    ++ [line_feed] ++ lit "2023-11-15T08:00:00.000Z: FAILED: disk full"
    ++ [line_feed].

Definition with_truncated_history : World :=
  world_of (one_file ++ [(logFilePath, File truncated_history)]) [] t0 [t1].

(** Two listings with the same concatenation of names, and a log that
    records the digest of that concatenation. *)
Definition listing_ab_c : list jsstring := [lit "ab"; lit "c"].
Definition listing_a_bc : list jsstring := [lit "a"; lit "bc"].

Definition recorded_abc : jsstring :=
  lit "2023-11-13T08-00-00-000Z: SUCCESS: Backup created at backups/x.tar.gz, HASH: ba7816bf8f01cfea414140de5dae2223b00361a396177a9cb410ff61f20015ad"
    ++ [line_feed].

Definition listed (names : list jsstring) : World :=
  world_of [(lit "src", Dir names); (logFilePath, File recorded_abc)] [] t0 [t1].

Definition skip_notice : list console_arg :=
  [Text (lit "No changes detected since last backup")].

End Scenario.

Section ScenarioFacts.

Import Scenario.
#[local] Existing Instance posix.
#[local] Existing Instance orderly.

(** ** Two runs on an unchanged directory *)

(** C1. The code does not skip the second of two runs on an unchanged
    directory: the first run records the digest of the file contents
    ([foo]), the second compares it with the digest of the entry names
    ([a.txt]), finds them different and archives again. Two runs leave two
    archives and two SUCCESS entries. *)
Theorem unchanged_directory_archived_again :
  fst (backup first_boot) = Ok tt /\
  file_text (fs after_first_run) logFilePath = first_entry /\
  fs after_first_run !! lit "src" = fs first_boot !! lit "src" /\
  fs after_first_run !! lit "src/a.txt" = fs first_boot !! lit "src/a.txt" /\
  fst (backup after_first_run) = Ok tt /\
  file_text (fs after_second_run) logFilePath = first_entry ++ second_entry /\
  fs after_second_run !! lit "backups/backup-2023-11-14T22-13-20-123Z.tar.gz"
    = Some (File archive_image) /\
  fs after_second_run !! lit "backups/backup-2023-11-14T22-14-20-123Z.tar.gz"
    = Some (File archive_image) /\
  ~ In skip_notice (stdout after_second_run) /\
  fst (getLastBackupHash logFilePath after_first_run)
    = Ok (Some (Sha256.sha256_hex (lit "foo"))) /\
  fst (calculateDirectoryChecksum (join [] [lit "a.txt"]) after_first_run)
    = Ok (Sha256.sha256_hex (lit "a.txt")) /\
  Sha256.sha256_hex (lit "a.txt") <> Sha256.sha256_hex (lit "foo").
Proof.
  conj_split; try (vm_compute; reflexivity).
  - vm_compute. intuition discriminate.
  - vm_compute. discriminate.
Qed.

(** ** The time stamp of a SUCCESS entry *)

(** C7. The SUCCESS entry that a run appends does not begin with an
    ISO 8601 time stamp: it reuses the time stamp made for the archive
    name, in which the colons and the dot are replaced by dashes. The same
    entry with the time stamp as [toISOString] gives it is well formed, and
    so is the FAILED entry, which the code builds from [toISOString]
    directly. *)
Theorem success_entry_timestamp_not_iso8601 :
  (forall t archivePath checksum,
     LogGrammar.well_formed_entry
       (success_entry (archive_timestamp t) archivePath checksum) = false) /\
  (forall t msg,
     LogGrammar.well_formed_entry (failed_entry (IsoDate.toISOString t) msg)
     = true) /\
  file_text (fs after_first_run) logFilePath = first_entry /\
  first_entry =
    success_entry (archive_timestamp t0) (archive_path (lit "backups") t0)
      (Sha256.sha256_hex (lit "foo")) /\
  LogGrammar.strip_iso8601 first_entry = None /\
  LogGrammar.well_formed_entry first_entry = false /\
  LogGrammar.well_formed_entry
    (success_entry (IsoDate.toISOString t0) (archive_path (lit "backups") t0)
       (Sha256.sha256_hex (lit "foo"))) = true /\
  file_text (fs (snd (createArchive (lit "src") (lit "backups") archiver_down)))
    logFilePath
    = failed_entry (IsoDate.toISOString t1) (lit "disk full").
Proof.
  split; [exact success_entry_ill_formed|].
  split; [exact failed_entry_well_formed|].
  conj_split; vm_compute; reflexivity.
Qed.

(** ** Two listings, one fingerprint *)

(** C10. The pre-check fingerprint is the digest of the entry names joined
    without a separator. The listings [ab, c] and [a, bc] differ, yet they
    give the same joined string and hence the same fingerprint, with no
    collision of the digest involved; a run skips on the one exactly as on
    the other. *)
Theorem precheck_fingerprint_not_injective :
  listing_ab_c <> listing_a_bc /\
  join [] listing_ab_c = join [] listing_a_bc /\
  (forall w,
     calculateDirectoryChecksum (join [] listing_ab_c) w
     = calculateDirectoryChecksum (join [] listing_a_bc) w) /\
  fst (backup (listed listing_ab_c)) = Ok tt /\
  stdout (snd (backup (listed listing_ab_c))) = [skip_notice] /\
  file_text (fs (snd (backup (listed listing_ab_c)))) logFilePath = recorded_abc /\
  fst (backup (listed listing_a_bc)) = Ok tt /\
  stdout (snd (backup (listed listing_a_bc))) = [skip_notice] /\
  file_text (fs (snd (backup (listed listing_a_bc)))) logFilePath = recorded_abc.
Proof.
  conj_split; try (vm_compute; reflexivity).
  vm_compute. discriminate.
Qed.

(** ** Failures that leave no entry *)

(** The log gains an entry that contains [text]. *)
Definition log_gains (text : jsstring) (before after : World) : Prop :=
  exists entry,
    includes entry text = true /\
    file_text (fs after) logFilePath
    = file_text (fs before) logFilePath ++ entry.

(** The destination directory is there, and the archiver fails with
    [disk full]. *)
Definition archiver_fails : World :=
  world_of (one_file ++ [(lit "backups", Dir [])])
    [Some (lit "disk full")] t0 [t1].

Definition first_archive : jsstring :=
  lit "backups/backup-2023-11-14T22-13-20-123Z.tar.gz".

(** C5, where it fails. First, the archiver fails with [disk full] and the
    append of the FAILED entry is refused as well: [createArchive] throws,
    and the log gains no line with [FAILED: disk full]. Second, the
    archiver fails with [disk full] after it has begun to write:
    [createArchive] logs the failure and throws, and the truncated archive
    is at the destination, where there was no file before. *)
Lemma archiver_failure_unlogged_or_archive_left :
  (List.hd None (faults disk_full) = Some (lit "disk full") /\
   fst (createArchive (lit "src") (lit "backups") disk_full)
     = Throw (mkError (lit "ENOSPC: no space left on device, write")) /\
   ~ log_gains (lit "FAILED: disk full") disk_full
       (snd (createArchive (lit "src") (lit "backups") disk_full)))
  /\
  (List.hd None (faults archiver_fails) = Some (lit "disk full") /\
   fs archiver_fails !! first_archive = None /\
   fst (createArchive (outside := untidy) (lit "src") (lit "backups")
          archiver_fails)
     = Throw (backup_failure (lit "disk full")) /\
   file_text
     (fs (snd (createArchive (outside := untidy) (lit "src") (lit "backups")
                 archiver_fails))) logFilePath
     = failed_entry (IsoDate.toISOString t1) (lit "disk full") /\
   fs (snd (createArchive (outside := untidy) (lit "src") (lit "backups")
              archiver_fails)) !! first_archive
     = Some (File (lit "<tar.gz, truncated>"))).
Proof.
  split.
  - conj_split; try (vm_compute; reflexivity).
    intros (entry & Hinc & Hlog). vm_compute in Hlog. subst entry.
    vm_compute in Hinc. discriminate.
  - conj_split; vm_compute; reflexivity.
Qed.


End ScenarioFacts.

(* ===================================================================== *)
(** * The theorems at work on concrete worlds                             *)
(* ===================================================================== *)

Section Instances.

Import Scenario.
#[local] Existing Instance posix.
#[local] Existing Instance orderly.

(** Of the two recorded hashes, the later one is returned; the stray line
    before it and the FAILED line after it make no difference. *)
Lemma getLastBackupHash_last_marked_line_witness :
  getLastBackupHash logFilePath with_history
  = (Ok (Some (lit "2222")), with_history).
Proof.
  apply (getLastBackupHash_last_marked_line
           with_history with_history logFilePath history
           [lit "2023-11-13T08-00-00-000Z: SUCCESS: Backup created at backups/backup-2023-11-13T08-00-00-000Z.tar.gz, HASH: 1111";
            lit "-- rotated --"]
           (lit "2023-11-14T08-00-00-000Z: SUCCESS: Backup created at backups/backup-2023-11-14T08-00-00-000Z.tar.gz, HASH: 2222")
           [lit "2023-11-15T08:00:00.000Z: FAILED: disk full"]
           (lit "2023-11-14T08-00-00-000Z: SUCCESS: Backup created at backups/backup-2023-11-14T08-00-00-000Z.tar.gz, ")
           (lit " 2222") []).
  - vm_compute. reflexivity.
  - vm_compute. reflexivity.
  - repeat constructor.
  - vm_compute. reflexivity.
  - vm_compute. reflexivity.
  - vm_compute. reflexivity.
  - left. reflexivity.
Defined.

(** Without a log file the result is [null]. *)
Lemma getLastBackupHash_never_raises_witness :
  fs first_boot !! logFilePath = None /\
  exists w', getLastBackupHash logFilePath first_boot = (Ok None, w').
Proof.
  assert (fs first_boot !! logFilePath = None) as Hmissing
    by (vm_compute; reflexivity).
  split; [exact Hmissing|].
  apply (proj2 (getLastBackupHash_never_raises first_boot logFilePath)).
  left. exact Hmissing.
Defined.

(** A marked line that breaks off after the marker yields the empty
    string. *)
Lemma getLastBackupHash_empty_hash_witness :
  getLastBackupHash logFilePath with_truncated_history
    = (Ok (Some []), with_truncated_history) /\
  fst (getLastBackupHash logFilePath with_truncated_history) <> Ok None.
Proof.
  apply (getLastBackupHash_empty_hash
           with_truncated_history with_truncated_history logFilePath
           truncated_history
           [lit "2023-11-13T08-00-00-000Z: SUCCESS: Backup created at backups/backup-2023-11-13T08-00-00-000Z.tar.gz, HASH: 1111"]
           (lit "2023-11-14T08-00-00-000Z: SUCCESS: Backup created at backups/x.tar.gz, HASH:   ")
           [lit "2023-11-15T08:00:00.000Z: FAILED: disk full"]
           (lit "2023-11-14T08-00-00-000Z: SUCCESS: Backup created at backups/x.tar.gz, ")
           (lit "   ")).
  - vm_compute. reflexivity.
  - vm_compute. reflexivity.
  - repeat constructor.
  - vm_compute. reflexivity.
  - vm_compute. reflexivity.
  - vm_compute. reflexivity.
Defined.

(** With [a.txt] and [b.txt] holding [foo] and [bar], and the destination
    directory in place, the recorded fingerprint is the digest of
    [foobar]. *)
Lemma createArchive_records_content_digest_witness :
  let w := world_of (two_files ++ [(lit "backups", Dir [])]) [] t0 [t1] in
  let w' := snd (createArchive (lit "src") (lit "backups") w) in
  createArchive (lit "src") (lit "backups") w = (Ok tt, w') /\
  file_text (fs w') logFilePath
  = success_entry (archive_timestamp t0) (archive_path (lit "backups") t0)
      (Sha256.sha256_hex (lit "foobar")) /\
  Sha256.sha256_hex (lit "foobar")
  = lit "c3ab8ff13720e8ad9047dd39466b3c8974e592c2fa383d4a3960714caef0c4f2".
Proof.
  intros w w'.
  assert (createArchive (lit "src") (lit "backups") w = (Ok tt, w')) as Hrun
    by (vm_compute; reflexivity).
  split; [exact Hrun|]. split; [|vm_compute; reflexivity].
  destruct (createArchive_records_content_digest _ _ _ _ Hrun)
    as (files & contents & Hdir & Hall & Hfs).
  vm_compute in Hdir. inversion Hdir; subst files.
  inversion Hall as [|f1 c1 fs1 cs1 H1 Hall1]; subst.
  inversion Hall1 as [|f2 c2 fs2 cs2 H2 Hall2]; subst.
  inversion Hall2; subst.
  vm_compute in H1. inversion H1; subst c1.
  vm_compute in H2. inversion H2; subst c2.
  rewrite Hfs. vm_compute. reflexivity.
Defined.

(** The archiver fails with [disk full] and the log can be written. *)
Lemma createArchive_archiver_failure_witness :
  exists w',
    createArchive (lit "src") (lit "backups") archiver_fails
      = (Throw (backup_failure (lit "disk full")), w') /\
    fs w' =
      log_appended (fs archiver_fails)
        (failed_entry (IsoDate.toISOString (next_reading archiver_fails))
           (lit "disk full")).
Proof.
  destruct (createArchive_archiver_failure
              (lit "src") (lit "backups") archiver_fails (lit "disk full") []
              eq_refl) as (Hmade & _).
  apply Hmade.
  - reflexivity.
  - intros names. vm_compute. discriminate.
Defined.

(** The listing names a directory and a file that is no longer there:
    both reads fail, after the archive has been made. *)
Definition two_unreadable : World :=
  world_of
    [(lit "src", Dir [lit "sub"; lit "gone.txt"]); (lit "src/sub", Dir []);
     (lit "backups", Dir [])] [] t0 [t1].



(** Which of two failing reads is logged depends on which of them fails
    first: the one made first in an [orderly] outside, the one made last in
    an [untidy] one. *)
Example two_reads_fail :
  file_text
    (fs (snd (createArchive (outside := orderly) (lit "src") (lit "backups")
                two_unreadable))) logFilePath
  = failed_entry (IsoDate.toISOString t1)
      (lit "EISDIR: illegal operation on a directory, read")
  /\
  file_text
    (fs (snd (createArchive (outside := untidy) (lit "src") (lit "backups")
                two_unreadable))) logFilePath
  = failed_entry (IsoDate.toISOString t1)
      (lit "ENOENT: no such file or directory, open 'src/gone.txt'").
Proof. conj_split; vm_compute; reflexivity. Qed.

(** The append of the SUCCESS entry is refused: the run is logged as
    FAILED, with the message of that append. *)
Example success_entry_refused :
  let w :=
    world_of (one_file ++ [(lit "backups", Dir [])])
      [None; None; None; Some (lit "EIO: i/o error, write")] t0 [t1] in
  fst (createArchive (lit "src") (lit "backups") w)
    = Throw (backup_failure (lit "EIO: i/o error, write")) /\
  file_text (fs (snd (createArchive (lit "src") (lit "backups") w))) logFilePath
    = failed_entry (IsoDate.toISOString t1) (lit "EIO: i/o error, write").
Proof. intros w. conj_split; vm_compute; reflexivity. Qed.

(** Every read of a [Promise.all] is made, and uses up its entry of the
    plan of failures, also after one of them has failed: here the third
    entry fails the first read, the fourth lets the second read through and
    the fifth refuses the append of the FAILED entry. *)
Example reads_after_a_failed_read :
  let w :=
    world_of (two_files ++ [(lit "backups", Dir [])])
      [None; None; Some (lit "EACCES: permission denied, open 'src/a.txt'");
       None; Some (lit "ENOSPC: no space left on device, write")] t0 [t1] in
  fst (createArchive (lit "src") (lit "backups") w)
    = Throw (mkError (lit "ENOSPC: no space left on device, write")) /\
  faults (snd (createArchive (lit "src") (lit "backups") w)) = [] /\
  fs (snd (createArchive (lit "src") (lit "backups") w)) !! logFilePath = None.
Proof. intros w. conj_split; vm_compute; reflexivity. Qed.

(** A run that cannot create its destination directory still completes. *)
Lemma runBackup_never_raises_witness :
  exists w',
    runBackup (lit "src") (lit "backups") blocked_destination = (Ok tt, w') /\
    (forall w1,
       runBackup_try (lit "src") (lit "backups") blocked_destination
         = (Ok tt, w1) -> w' = w1) /\
    (forall e w1,
       runBackup_try (lit "src") (lit "backups") blocked_destination
         = (Throw e, w1) ->
       stderr w' = stderr w1 ++ failure_report e /\ fs w' = fs w1).
Proof.
  exact (runBackup_never_raises (lit "src") (lit "backups") blocked_destination).
Defined.

End Instances.

(* ===================================================================== *)
(** * How the services leave the world                                    *)
(* ===================================================================== *)

Section Frames.

Context {outside : Outside}.

(** The clock and the console are as before. *)
Definition same_clock_console (w w' : World) : Prop :=
  clock_now w' = clock_now w /\ clock_next w' = clock_next w /\
  stdout w' = stdout w /\ stderr w' = stderr w.

(** None of the next [n] calls out of the process is made to fail. *)
Definition unfaulted (n : nat) (w : World) : Prop :=
  List.Forall (fun f => f = None) (List.firstn n (faults w)).

Lemma unfaulted_S n w :
  unfaulted (S n) w ->
  no_fault w /\ List.Forall (fun f => f = None) (List.firstn n (List.tail (faults w))).
Proof.
  unfold unfaulted, no_fault. destruct (faults w) as [|[m|] rest]; cbn.
  - intros _. split; [exact I|]. destruct n; constructor.
  - intros H. inversion H. discriminate.
  - intros H. inversion H. split; [exact I|assumption].
Qed.

Lemma unfaulted_le n k w : (k <= n)%nat -> unfaulted n w -> unfaulted k w.
Proof.
  unfold unfaulted. intros Hle H. rewrite List.Forall_forall in *.
  intros f Hf. apply H.
  rewrite <- (List.firstn_skipn k (List.firstn n (faults w))).
  rewrite List.firstn_firstn, Nat.min_l by exact Hle.
  apply List.in_or_app. left. exact Hf.
Qed.

(** A call out of the process touches neither the clock nor the console,
    and uses up one entry of the plan. *)
Lemma io_frame {A} (act : gmap jsstring node -> outcome A * gmap jsstring node)
    w r w' :
  io act w = (r, w') ->
  same_clock_console w w' /\ faults w' = List.tail (faults w).
Proof.
  unfold io, same_clock_console.
  destruct (faults w) as [|[m|] rest]; try destruct (act (fs w)) as [r0 m0];
    intros H; inversion H; subst; cbn; auto.
Qed.

(** A call that is not made to fail acts on the file system. *)
Lemma io_calm {A} (act : gmap jsstring node -> outcome A * gmap jsstring node)
    n w :
  unfaulted (S n) w ->
  exists w',
    io act w = (fst (act (fs w)), w') /\ fs w' = snd (act (fs w)) /\
    unfaulted n w' /\ same_clock_console w w'.
Proof.
  intros H. apply unfaulted_S in H as [Hno Hrest].
  unfold io, no_fault in *.
  destruct (faults w) as [|[m|] rest] eqn:E; try contradiction;
    destruct (act (fs w)) as [r0 m0]; eexists; (split; [reflexivity|]);
    unfold unfaulted, same_clock_console; cbn in *; rewrite ?E;
    repeat split; assumption.
Qed.

Lemma io_Throw {A} (act : gmap jsstring node -> outcome A * gmap jsstring node)
    w e w' :
  (forall m e' m', act m = (Throw e', m') -> m' = m) ->
  io act w = (Throw e, w') -> fs w' = fs w.
Proof.
  unfold io. intros Hact.
  destruct (faults w) as [|[m|] rest];
    try (pose proof (Hact (fs w)) as Hm; destruct (act (fs w)) as [r0 m0]);
    intros H; inversion H; subst; cbn in *; eauto.
Qed.

Lemma appendFile_Throw p data w e w' :
  appendFile p data w = (Throw e, w') -> fs w' = fs w.
Proof.
  apply io_Throw. intros m e' m'.
  destruct (m !! p) as [[c|names]|]; intros H; inversion H; reflexivity.
Qed.

Lemma mkdir_recursive_Throw p w e w' :
  mkdir_recursive p w = (Throw e, w') -> fs w' = fs w.
Proof.
  apply io_Throw. intros m e' m'.
  destruct (m !! p) as [[c|names]|]; intros H; inversion H; reflexivity.
Qed.

(** An archiver that fails leaves the file system as it was, but for
    the partial archive that it may leave. *)
Lemma promisifiedExec_tar_Throw command archivePath w e w' :
  promisifiedExec_tar command archivePath w = (Throw e, w') ->
  fs w' = left_by_archiver command archivePath (fs w).
Proof.
  unfold promisifiedExec_tar.
  destruct (faults w) as [|[m|] rest]; intros H; inversion H; reflexivity.
Qed.

End Frames.

(* ===================================================================== *)
(** * Reading the log changes nothing                                     *)
(* ===================================================================== *)

Section ReadOnly.

(** [getLastBackupHash] only reads: whatever the log holds and whatever
    goes wrong, the file system, the clock and the standard output are
    left as they were. *)
Theorem getLastBackupHash_read_only logPath w :
  let w' := snd (getLastBackupHash logPath w) in
  fs w' = fs w /\ stdout w' = stdout w /\
  clock_now w' = clock_now w /\ clock_next w' = clock_next w.
Proof.
  unfold getLastBackupHash, try_catch, bind.
  destruct (readFile logPath w) as [[content|e] w1] eqn:Hread;
    (pose proof (readFile_reads _ _ _ _ Hread) as Hfs;
     apply io_frame in Hread as [(Hnow & Hnext & Hout & Herr) _]).
  - match goal with
    | |- context [List.find ?P ?l] => destruct (List.find P l) as [[|c line]|]
    end; cbn; auto.
  - cbn. auto.
Qed.

(** A log that can be read leaves the error stream alone; an error while
    reading it is written once to the error stream, with the text
    [Error reading log file:], and turned into [null]. *)
Theorem getLastBackupHash_reports_read_error logPath w :
  let r := fst (getLastBackupHash logPath w) in
  let w' := snd (getLastBackupHash logPath w) in
  (exists content w1,
     readFile logPath w = (Ok content, w1) /\ stderr w' = stderr w)
  \/ (exists e w1,
        readFile logPath w = (Throw e, w1) /\ r = Ok None /\
        stderr w' =
          stderr w ++ [[Text (lit "Error reading log file:"); Obj e]]).
Proof.
  unfold getLastBackupHash, try_catch, bind.
  destruct (readFile logPath w) as [[content|e] w1] eqn:Hread;
    apply io_frame in Hread as [(Hnow & Hnext & Hout & Herr) _].
  - left. exists content, w1. split; [reflexivity|].
    match goal with
    | |- context [List.find ?P ?l] => destruct (List.find P l) as [[|c line]|]
    end; exact Herr.
  - right. exists e, w1. cbn. rewrite Herr. auto.
Qed.

End ReadOnly.

(* ===================================================================== *)
(** * Runs in which nothing is made to fail                               *)
(* ===================================================================== *)

Section Calm.

Context {platform : Platform} {outside : Outside}.

(** [getLastBackupHash] leaves the file system and the clock as they
    are. *)
Lemma getLastBackupHash_fs logPath w r w' :
  getLastBackupHash logPath w = (r, w') ->
  fs w' = fs w /\ clock_now w' = clock_now w.
Proof.
  unfold getLastBackupHash, try_catch, bind.
  destruct (readFile logPath w) as [[content|e] w1] eqn:Hread;
    (pose proof (readFile_reads _ _ _ _ Hread) as Hfs;
     apply io_frame in Hread as [(Hnow & _) _]).
  - match goal with
    | |- context [List.find ?P ?l] => destruct (List.find P l) as [[|c line]|]
    end; intros H; inversion H; subst; auto.
  - intros H. inversion H; subst. cbn. auto.
Qed.

Lemma readdir_calm n p w names :
  unfaulted (S n) w -> fs w !! p = Some (Dir names) ->
  exists w', readdir p w = (Ok names, w') /\ fs w' = fs w /\
    unfaulted n w' /\ same_clock_console w w'.
Proof.
  intros Hcalm Hdir. unfold readdir.
  destruct (io_calm (fun m => match m !! p with
                              | Some (Dir names) => (Ok names, m)
                              | Some (File _) =>
                                  (Throw (errno (lit "ENOTDIR: not a directory")
                                            (lit "scandir") p), m)
                              | None =>
                                  (Throw (errno (lit "ENOENT: no such file or directory")
                                            (lit "scandir") p), m)
                              end) n w Hcalm)
    as (w' & Hrun & Hfs & Hrest).
  rewrite Hdir in Hrun, Hfs. exists w'. auto.
Qed.

Lemma readFile_calm n p w c :
  unfaulted (S n) w -> fs w !! p = Some (File c) ->
  exists w', readFile p w = (Ok c, w') /\ fs w' = fs w /\
    unfaulted n w' /\ same_clock_console w w'.
Proof.
  intros Hcalm Hfile. unfold readFile.
  match goal with
  | |- context [io ?act w] =>
      destruct (io_calm act n w Hcalm) as (w' & Hrun & Hfs & Hrest)
  end.
  rewrite Hfile in Hrun, Hfs. exists w'. auto.
Qed.

End Calm.

Section Runs.

Context {platform : Platform} {outside : Outside}.

Definition no_changes_notice : list console_arg :=
  [Text (lit "No changes detected since last backup")].

Lemma readdir_not_directory p w :
  (forall names, fs w !! p <> Some (Dir names)) ->
  exists e w', readdir p w = (Throw e, w').
Proof.
  intros Hnodir. unfold readdir, io.
  destruct (faults w) as [|[m|] rest]; [|eauto|];
    (destruct (fs w !! p) as [[c|names]|];
     [|exfalso; exact (Hnodir names eq_refl)|]; eauto).
Qed.

Lemma mkdir_recursive_on_file p c w w' :
  fs w !! p = Some (File c) -> mkdir_recursive p w <> (Ok tt, w').
Proof.
  intros Hfile H. apply io_Ok in H as (_ & m' & Hact & _).
  rewrite Hfile in Hact. discriminate.
Qed.

(** The branch of [runBackup] that skips. *)
Lemma runBackup_skip_branch sourceDir destinationDir files w w1 w2 :
  readdir sourceDir w = (Ok files, w1) ->
  getLastBackupHash logFilePath w1
    = (Ok (Some (Sha256.sha256_hex (join [] files))), w2) ->
  runBackup sourceDir destinationDir w
    = (Ok tt, write_stdout no_changes_notice w2).
Proof.
  intros Hrun1 Hrun2.
  unfold runBackup, try_catch, runBackup_try, bind.
  rewrite Hrun1. cbn [calculateDirectoryChecksum ret]. rewrite Hrun2.
  unfold strict_equal. rewrite bool_decide_eq_true_2 by reflexivity.
  reflexivity.
Qed.

(** When the digest of the entry names is the hash that the log records
    last, and neither reading the directory nor reading the log is made to
    fail, a run skips: it prints the notice and does nothing else. The
    file system is untouched, no reading of the clock is used up and
    nothing is written to the error stream. *)
Theorem runBackup_skips sourceDir destinationDir files content w :
  unfaulted 2 w ->
  fs w !! sourceDir = Some (Dir files) ->
  fs w !! logFilePath = Some (File content) ->
  hash_of_lines (log_lines content) = Some (Sha256.sha256_hex (join [] files)) ->
  exists w',
    runBackup sourceDir destinationDir w = (Ok tt, w') /\
    fs w' = fs w /\
    stdout w' = stdout w ++ [no_changes_notice] /\
    stderr w' = stderr w /\
    clock_now w' = clock_now w /\ clock_next w' = clock_next w.
Proof.
  intros Hcalm Hdir Hlog Hhash.
  destruct (readdir_calm _ _ _ _ Hcalm Hdir) as (w1 & Hrun1 & F1 & Q1 & S1).
  rewrite <- F1 in Hlog.
  destruct (readFile_calm _ _ _ _ Q1 Hlog) as (w2 & Hrun2 & F2 & Q2 & S2).
  apply getLastBackupHash_read in Hrun2. rewrite Hhash in Hrun2.
  rewrite (runBackup_skip_branch _ destinationDir _ _ _ _ Hrun1 Hrun2).
  eexists. split; [reflexivity|].
  destruct S1 as (A1 & B1 & C1 & D1), S2 as (A2 & B2 & C2 & D2).
  cbn [fs stdout stderr clock_now clock_next write_stdout].
  repeat split; congruence.
Qed.

(** When the source path is not a directory (it is missing, or it is a
    file), a run creates nothing: no destination directory, no archive and
    no log entry. It reports the error of [readdir] twice on the error
    stream and completes. *)
Theorem runBackup_without_source sourceDir destinationDir w :
  (forall names, fs w !! sourceDir <> Some (Dir names)) ->
  exists e w',
    fst (readdir sourceDir w) = Throw e /\
    runBackup sourceDir destinationDir w = (Ok tt, w') /\
    fs w' = fs w /\
    stdout w' = stdout w /\
    stderr w' = stderr w ++ failure_report e.
Proof.
  intros Hnodir.
  destruct (readdir_not_directory _ _ Hnodir) as (e & w1 & Hrun).
  pose proof (readdir_reads _ _ _ _ Hrun) as F1.
  pose proof (io_frame _ _ _ _ Hrun) as [(_ & _ & C1 & D1) _].
  unfold runBackup, try_catch, runBackup_try, bind. rewrite Hrun.
  exists e. eexists. split; [reflexivity|]. split; [reflexivity|].
  unfold runBackup_catch, process_stderr_write, bind, console_error,
    failure_report.
  cbn [fst snd fs stdout stderr write_stderr].
  rewrite <- app_assoc, D1. auto.
Qed.

(** When the destination path is taken by a regular file, no run changes
    the file system: wherever the run ends (unreadable source, skip, or
    the failure to create the directory), there is no archive and no log
    entry. *)
Theorem runBackup_destination_is_file sourceDir destinationDir c w :
  fs w !! destinationDir = Some (File c) ->
  fst (runBackup sourceDir destinationDir w) = Ok tt /\
  fs (snd (runBackup sourceDir destinationDir w)) = fs w.
Proof.
  intros Hfile.
  assert (forall r w', runBackup_try sourceDir destinationDir w = (r, w') ->
            fs w' = fs w) as Htry.
  { unfold runBackup_try, bind. intros r w'.
    destruct (readdir sourceDir w) as [[files|e] w1] eqn:E1;
      pose proof (readdir_reads _ _ _ _ E1) as F1;
      [|intros H; inversion H; subst; exact F1].
    cbn [calculateDirectoryChecksum ret].
    destruct (getLastBackupHash logFilePath w1) as [[last|e] w2] eqn:E2;
      apply getLastBackupHash_fs in E2 as [F2 _];
      [|intros H; inversion H; subst; congruence].
    destruct (strict_equal last _).
    - intros H. inversion H; subst. cbn. congruence.
    - destruct (mkdir_recursive destinationDir w2) as [[[]|e] w3] eqn:E3.
      + exfalso. eapply mkdir_recursive_on_file; [|exact E3].
        rewrite F2, F1. exact Hfile.
      + apply mkdir_recursive_Throw in E3.
        intros H. inversion H; subst. congruence. }
  unfold runBackup, try_catch.
  destruct (runBackup_try sourceDir destinationDir w) as [[[]|e] w1].
  - split; [reflexivity|]. exact (Htry _ _ eq_refl).
  - split; [reflexivity|]. cbn. exact (Htry _ _ eq_refl).
Qed.

End Runs.

Section LogGrowth.

Context {platform : Platform} {outside : Outside}.

Lemma bind_Throw_inv {A B} (c : M A) (k : A -> M B) w e w' :
  bind c k w = (Throw e, w') ->
  c w = (Throw e, w')
  \/ exists a w1, c w = (Ok a, w1) /\ k a w1 = (Throw e, w').
Proof.
  unfold bind. destruct (c w) as [[a|e'] w1]; intros H; [right; eauto|].
  left. inversion H. reflexivity.
Qed.

(** When the [try] block fails, nothing has changed but at the path of
    the archive, where there may be the archive or a part of it. *)
Lemma createArchive_try_Throw sourceDir timestamp normalized archivePath
    w e w' :
  createArchive_try sourceDir timestamp normalized archivePath w
    = (Throw e, w') ->
  fs w' = fs w \/ exists c, fs w' = <[archivePath := File c]> (fs w).
Proof.
  unfold createArchive_try. intros H.
  apply bind_Throw_inv in H as [H|([] & w1 & H1 & H)]; [discriminate|].
  apply console_log_Ok in H1 as [_ F1].
  apply bind_Throw_inv in H as [H|([] & w2 & H2 & H)].
  { apply promisifiedExec_tar_Throw in H. rewrite F1 in H.
    unfold left_by_archiver in H.
    destruct (partial_archive _ (fs w)) as [c|]; [right; exists c|left];
      exact H. }
  apply promisifiedExec_tar_Ok in H2 as F2. rewrite F1 in F2.
  right. exists archive_image.
  apply bind_Throw_inv in H as [H|(files & w3 & H3 & H)].
  { apply readdir_reads in H. congruence. }
  apply readdir_reads in H3 as F3.
  apply bind_Throw_inv in H as [H|([] & w4 & H4 & H)]; [discriminate|].
  apply console_log_Ok in H4 as [_ F4].
  apply bind_Throw_inv in H as [H|(contents & w5 & H5 & H)].
  { apply promise_all_map_readFile_reads in H. congruence. }
  apply promise_all_map_readFile_reads in H5 as F5.
  apply bind_Throw_inv in H as [H|(checksum & w6 & H6 & H)]; [discriminate|].
  inversion H6; subst checksum w6.
  apply bind_Throw_inv in H as [H|([] & w7 & H7 & H)]; [discriminate|].
  apply console_log_Ok in H7 as [_ F7].
  apply appendFile_Throw in H. congruence.
Qed.

Lemma file_text_log_appended m entry :
  file_text (log_appended m entry) logFilePath
  = file_text m logFilePath ++ entry.
Proof.
  unfold file_text at 1, log_appended. rewrite lookup_insert_eq. reflexivity.
Qed.

Lemma file_text_insert_ne m p q x :
  p <> q -> file_text (<[p := x]> m) q = file_text m q.
Proof.
  intros Hne. unfold file_text. rewrite lookup_insert_ne by exact Hne.
  reflexivity.
Qed.

(** The log only grows, and by one entry at most: whatever happens,
    [createArchive] leaves the text that the log held in place and adds
    either nothing (when the append itself fails), or one SUCCESS entry
    (exactly when it completes), or one FAILED entry whose message is the
    one that it throws. The archive is assumed not to be written over the
    log file. *)
Theorem createArchive_log_grows_by_one_entry sourceDir destinationDir w :
  archive_path destinationDir (clock_now w) <> logFilePath ->
  let r := fst (createArchive sourceDir destinationDir w) in
  let w' := snd (createArchive sourceDir destinationDir w) in
  exists added,
    file_text (fs w') logFilePath = file_text (fs w) logFilePath ++ added /\
    ((added = [] /\ exists e, r = Throw e)
     \/ (r = Ok tt /\
         exists checksum,
           added = success_entry (archive_timestamp (clock_now w))
                     (archive_path destinationDir (clock_now w)) checksum)
     \/ (exists t msg,
           r = Throw (backup_failure msg) /\
           added = failed_entry (IsoDate.toISOString t) msg)).
Proof.
  intros Hpath r w'. subst r w'.
  destruct (createArchive sourceDir destinationDir w) as [[[]|e] w'] eqn:E;
    cbn [fst snd].
  - apply createArchive_Ok in E as (w0 & F0 & Htry).
    apply createArchive_try_Ok in Htry
      as (files & contents & _ & _ & Hfs).
    rewrite Hfs, file_text_log_appended, F0,
      (file_text_insert_ne _ _ _ _ Hpath).
    eexists. split; [reflexivity|]. right. left. eauto.
  - apply createArchive_Throw in E as (w0 & cause & wt & F0 & Htry & Hcatch).
    assert (file_text (fs wt) logFilePath = file_text (fs w) logFilePath)
      as Hkept.
    { apply createArchive_try_Throw in Htry as [->|(c & ->)]; rewrite F0;
        [reflexivity|apply file_text_insert_ne, Hpath]. }
    apply createArchive_catch_inv in Hcatch
      as (t & w1 & F1 & [[Happ Hr]|(e' & Happ & Hr)]).
    + apply appendFile_Ok in Happ. rewrite F1 in Happ.
      fold (log_appended (fs wt)
              (failed_entry (IsoDate.toISOString t) (message cause))) in Happ.
      rewrite Happ, file_text_log_appended, Hkept.
      eexists. split; [reflexivity|]. right. right.
      exists t, (message cause). auto.
    + apply appendFile_Throw in Happ. rewrite Happ, F1, Hkept.
      exists []. rewrite app_nil_r. split; [reflexivity|]. left. eauto.
Qed.

(** The archiver succeeds and listing the source directory then fails
    with message [msg]: the archive stays where it was written, and the
    log records the run as FAILED. *)
Theorem createArchive_keeps_archive_of_failed_run
    sourceDir destinationDir w msg rest :
  faults w = None :: Some msg :: rest ->
  List.hd None rest = None ->
  let archivePath := archive_path destinationDir (clock_now w) in
  let archived := <[archivePath := File archive_image]> (fs w) in
  (forall names, archived !! logFilePath <> Some (Dir names)) ->
  exists w',
    createArchive sourceDir destinationDir w
      = (Throw (backup_failure msg), w') /\
    fs w' =
      log_appended archived
        (failed_entry (IsoDate.toISOString (next_reading w)) msg).
Proof.
  intros Hfaults Hrest archivePath archived Hlog.
  rewrite createArchive_unfold.
  unfold bind, new_Date, try_catch, createArchive_try, bind, console_log,
    promisifiedExec_tar, readdir, io.
  world_simpl. rewrite Hfaults. cbn [List.tail]. world_simpl.
  unfold createArchive_catch, bind, new_Date, console_error, appendFile, io,
    throw.
  world_simpl. fold archivePath. fold archived.
  unfold log_appended, file_text, failed_entry, backup_failure.
  cbn [message].
  destruct rest as [|[m|] rest']; cbn in Hrest; try discriminate;
    (destruct (archived !! logFilePath) as [[c|names]|] eqn:E;
     [|exfalso; eapply Hlog; reflexivity|]);
    (eexists; split; [reflexivity|]; world_simpl; rewrite ?app_nil_l;
     reflexivity).
Qed.

End LogGrowth.

(* ===================================================================== *)
(** * What is written is what is read back                                *)
(* ===================================================================== *)

Section ReadBack.

Import LogGrammar.

Definition not_white (c : N) : Prop := is_white_space c = false.

Lemma hex_digit_not_white c : is_hex_digit c = true -> not_white c.
Proof.
  unfold is_hex_digit, is_digit, not_white, is_white_space. intros H.
  assert (48 <= c <= 102)%N as Hc.
  { apply orb_prop in H as [H|H]; apply andb_prop in H as [H1 H2];
      apply N.leb_le in H1; apply N.leb_le in H2; lia. }
  assert (N.leb c 13 = false) as -> by (apply N.leb_gt; lia).
  assert (N.leb 8192 c = false) as -> by (apply N.leb_gt; lia).
  rewrite andb_false_r. cbn [andb orb].
  repeat match goal with
  | |- context [N.eqb c ?k] =>
      replace (N.eqb c k) with false by (symmetry; apply N.eqb_neq; lia)
  end.
  reflexivity.
Qed.

Lemma hex_digit_plain c :
  is_hex_digit c = true -> c <> 72%N /\ c <> line_feed.
Proof.
  unfold is_hex_digit, is_digit, line_feed. intros H.
  apply orb_prop in H as [H|H]; apply andb_prop in H as [H1 H2];
    apply N.leb_le in H1; apply N.leb_le in H2; lia.
Qed.

Lemma trim_start_not_white c s : not_white c -> trim_start (c :: s) = c :: s.
Proof. unfold not_white. intros H. cbn [trim_start]. rewrite H. reflexivity. Qed.

(** Trimming at the start removes a part of what precedes a unit that is
    not white space, and nothing after it. *)
Lemma trim_start_keeps old c s :
  not_white c ->
  exists old', trim_start (old ++ c :: s) = old' ++ c :: s /\
    (old' = [] \/ (old' <> [] /\ exists pre, old = pre ++ old')).
Proof.
  intros Hc. induction old as [|x old IH].
  - exists []. split; [apply trim_start_not_white, Hc|left; reflexivity].
  - cbn [app trim_start]. destruct (is_white_space x).
    + destruct IH as (old' & Heq & Hold). exists old'. split; [exact Heq|].
      destruct Hold as [->|(Hne & pre & ->)]; [left; reflexivity|].
      right. split; [exact Hne|]. exists (x :: pre). reflexivity.
    + exists (x :: old). split; [reflexivity|]. right.
      split; [discriminate|]. exists []. reflexivity.
Qed.

(** Trimming at the end removes a final line feed and stops at a unit that
    is not white space. *)
Lemma trim_end_line_feed s c :
  not_white c -> trim_end (s ++ [c] ++ [line_feed]) = s ++ [c].
Proof.
  intros Hc. unfold trim_end.
  rewrite !List.rev_app_distr. cbn [List.rev app].
  change (trim_start (line_feed :: c :: List.rev s))
    with (trim_start (c :: List.rev s)).
  rewrite (trim_start_not_white c _ Hc).
  cbn [List.rev]. rewrite List.rev_involutive. reflexivity.
Qed.

Lemma trim_all_not_white s : List.Forall not_white s -> trim s = s.
Proof.
  intros H. unfold trim, trim_end.
  assert (forall x, List.Forall not_white x -> trim_start x = x) as Hstart.
  { intros x Hx. destruct Hx as [|c x Hc _]; [reflexivity|].
    apply trim_start_not_white, Hc. }
  rewrite (Hstart _ H), (Hstart _ (List.Forall_rev H)).
  apply List.rev_involutive.
Qed.

(** ** Lines *)

Definition line_feed_free (s : jsstring) : Prop :=
  List.Forall (fun c => c <> line_feed) s.

Lemma split_line_feed_free s cur :
  line_feed_free s -> split_scan [line_feed] s O cur = [List.rev cur ++ s].
Proof.
  intros H. revert cur. induction H as [|c s Hc _ IH]; intros cur.
  - cbn. rewrite app_nil_r. reflexivity.
  - cbn [split_scan starts_with].
    replace (N.eqb line_feed c) with false
      by (symmetry; apply N.eqb_neq; congruence).
    cbn [andb]. rewrite IH. cbn [List.rev]. rewrite <- app_assoc. reflexivity.
Qed.

(** The last piece of a text is what follows its last line feed. *)
Lemma split_last_line x y cur :
  line_feed_free y ->
  exists init,
    split_scan [line_feed] (x ++ line_feed :: y) O cur = init ++ [y].
Proof.
  intros Hy. revert cur. induction x as [|c x IH]; intros cur.
  - cbn [app split_scan starts_with]. rewrite N.eqb_refl. cbn [andb].
    cbn [List.length Nat.pred].
    rewrite (split_line_feed_free y [] Hy). exists [List.rev cur]. reflexivity.
  - cbn [app split_scan starts_with]. destruct (N.eqb line_feed c); cbn [andb].
    + cbn [List.length Nat.pred]. destruct (IH []) as (init & ->).
      exists (List.rev cur :: init). reflexivity.
    + apply IH.
Qed.

Lemma ends_with_line_feed pre old' o :
  old' <> [] -> pre ++ old' = o ++ [line_feed] ->
  exists o', old' = o' ++ [line_feed].
Proof.
  intros Hne Heq.
  destruct (List.exists_last Hne) as (o' & z & ->).
  rewrite app_assoc in Heq. apply List.app_inj_tail in Heq as [_ ->].
  exists o'. reflexivity.
Qed.

Lemma plain_unmarked s : List.Forall (fun c => c <> 72%N) s -> unmarked s.
Proof.
  unfold unmarked. induction 1 as [|c s Hc _ IH]; [reflexivity|].
  cbn [includes]. rewrite IH, orb_false_r, hash_marker_units.
  cbn [starts_with].
  replace (N.eqb 72 c) with false by (symmetry; apply N.eqb_neq; congruence).
  reflexivity.
Qed.

(** The hash found in a log that ends with a SUCCESS entry is the checksum
    of that entry. *)
Lemma hash_of_lines_success_entry old timestamp archivePath checksum :
  old = [] \/ (exists o, old = o ++ [line_feed]) ->
  let head :=
    timestamp ++ lit ": SUCCESS: Backup created at " ++ archivePath
      ++ lit ", " in
  unmarked head -> line_feed_free head ->
  (exists c rest, timestamp = c :: rest /\ not_white c) ->
  checksum <> [] ->
  List.Forall (fun c => is_hex_digit c = true) checksum ->
  hash_of_lines (log_lines (old ++ success_entry timestamp archivePath checksum))
  = Some checksum.
Proof.
  intros Hold head Hhead Hfree (c0 & ts & -> & Hc0) Hne Hhex.
  destruct (List.exists_last Hne) as (sum & h & ->).
  assert (not_white h) as Hh.
  { apply hex_digit_not_white.
    rewrite List.Forall_forall in Hhex. apply Hhex, List.in_or_app.
    right. left. reflexivity. }
  set (line := head ++ hash_marker ++ (lit " " ++ sum ++ [h])).
  assert (success_entry (c0 :: ts) archivePath (sum ++ [h])
          = c0 :: (ts ++ lit ": SUCCESS: Backup created at " ++ archivePath
                     ++ lit ", " ++ hash_marker ++ lit " " ++ sum)
                  ++ [h] ++ [line_feed]) as Hentry.
  { unfold success_entry.
    change (lit ", HASH: ") with (lit ", " ++ hash_marker ++ lit " ").
    cbn [app]. repeat rewrite <- app_assoc. reflexivity. }
  assert (line = c0 :: (ts ++ lit ": SUCCESS: Backup created at " ++ archivePath
                     ++ lit ", " ++ hash_marker ++ lit " " ++ sum) ++ [h])
    as Hline.
  { unfold line, head. cbn [app]. repeat rewrite <- app_assoc. reflexivity. }
  (* the trimmed text *)
  assert (exists old',
            trim (old ++ success_entry (c0 :: ts) archivePath (sum ++ [h]))
            = old' ++ line /\
            (old' = [] \/ exists o', old' = o' ++ [line_feed]))
    as (old' & Htrim & Hold').
  { rewrite Hentry. unfold trim.
    destruct (trim_start_keeps old c0
                ((ts ++ lit ": SUCCESS: Backup created at " ++ archivePath
                    ++ lit ", " ++ hash_marker ++ lit " " ++ sum)
                   ++ [h] ++ [line_feed]) Hc0) as (old' & -> & Hkeep).
    exists old'. split.
    - rewrite Hline.
      change (old' ++ c0 :: ?x ++ [h] ++ [line_feed])
        with (old' ++ (c0 :: x) ++ [h] ++ [line_feed]).
      rewrite (app_assoc old'), (trim_end_line_feed _ h Hh).
      rewrite <- app_assoc. reflexivity.
    - destruct Hkeep as [->|(Hne' & pre & Hpre)]; [left; reflexivity|].
      destruct Hold as [->|(o & ->)].
      + destruct pre; destruct old'; try discriminate. congruence.
      + right. symmetry in Hpre.
        exact (ends_with_line_feed _ _ _ Hne' Hpre). }
  (* the line is free of line feeds *)
  assert (line_feed_free line) as Hlf.
  { unfold line, line_feed_free in *. apply List.Forall_app. split; [exact Hfree|].
    rewrite hash_marker_units. repeat constructor; try discriminate.
    apply List.Forall_impl with (2 := Hhex).
    intros a Ha. apply (hex_digit_plain a Ha). }
  (* its lines end with [line] *)
  assert (exists init, log_lines
            (old ++ success_entry (c0 :: ts) archivePath (sum ++ [h]))
            = init ++ [line]) as (init & Hlines).
  { unfold log_lines. rewrite Htrim.
    change (split ?s [line_feed]) with (split_scan [line_feed] s O []).
    destruct Hold' as [->|(o' & ->)].
    - exists []. rewrite app_nil_l, (split_line_feed_free _ [] Hlf).
      reflexivity.
    - rewrite <- app_assoc. exact (split_last_line o' line [] Hlf). }
  rewrite Hlines. unfold hash_of_lines, line.
  rewrite (find_last_marked init head [] _ (List.Forall_nil _)).
  destruct (head ++ hash_marker ++ lit " " ++ sum ++ [h]) as [|x l] eqn:E.
  - apply marked_not_empty in E. contradiction.
  - rewrite <- E, <- (app_nil_r (lit " " ++ sum ++ [h])).
    rewrite (split_hash_field head (lit " " ++ sum ++ [h]) []);
      [|exact Hhead| |left; reflexivity].
    + assert (trim (lit " " ++ sum ++ [h]) = sum ++ [h]) as Hsum.
      { change (trim (lit " " ++ sum ++ [h]))
          with (trim_end (trim_start (sum ++ [h]))).
        apply (trim_all_not_white (sum ++ [h])).
        apply List.Forall_impl with (2 := Hhex). exact hex_digit_not_white. }
      cbn [option_map]. rewrite Hsum. reflexivity.
    + apply plain_unmarked. constructor; [discriminate|].
      apply List.Forall_impl with (2 := Hhex).
      intros a Ha. apply (hex_digit_plain a Ha).
Qed.


(** Round trip through the log: when the log ends with a SUCCESS entry,
    [getLastBackupHash] returns the checksum that the entry records. The
    entries before it end with a line feed (or there are none), the text
    of the entry before its hash field holds no [HASH:] and no line feed
    and begins with a unit that is not white space, and the checksum is a
    non-empty string of hexadecimal digits. *)
Theorem getLastBackupHash_reads_back_success_entry
    w w1 old timestamp archivePath checksum :
  readFile logFilePath w
    = (Ok (old ++ success_entry timestamp archivePath checksum), w1) ->
  old = [] \/ (exists o, old = o ++ [line_feed]) ->
  let head :=
    timestamp ++ lit ": SUCCESS: Backup created at " ++ archivePath
      ++ lit ", " in
  unmarked head -> line_feed_free head ->
  (exists c rest, timestamp = c :: rest /\ not_white c) ->
  checksum <> [] ->
  List.Forall (fun c => is_hex_digit c = true) checksum ->
  getLastBackupHash logFilePath w = (Ok (Some checksum), w1).
Proof.
  intros Hread Hold head Hhead Hfree Hfirst Hne Hhex.
  rewrite (getLastBackupHash_read _ _ _ _ Hread).
  rewrite (hash_of_lines_success_entry old timestamp archivePath checksum);
    [reflexivity|exact Hold|exact Hhead|exact Hfree|exact Hfirst|exact Hne
    |exact Hhex].
Qed.

(** The time stamp of an archive begins with a digit or a sign. *)
Lemma archive_timestamp_head t :
  exists c rest, archive_timestamp t = c :: rest /\ not_white c.
Proof.
  destruct (archive_timestamp_shape t)
    as (year & mo & d & h & mi & sec & ms & -> & Hy & _).
  destruct Hy as [Hy|[(ds & -> & _)|(ds & -> & _)]].
  - destruct (digit_string_head _ _ Hy) as (c & s' & -> & Hc).
    eexists c, _. split; [reflexivity|].
    apply hex_digit_not_white. unfold is_hex_digit. rewrite Hc. reflexivity.
  - eexists _, _. split; [reflexivity|]. reflexivity.
  - eexists _, _. split; [reflexivity|]. reflexivity.
Qed.

End ReadBack.

Section WriteThenRead.

Context {platform : Platform} {outside : Outside}.

Import LogGrammar.

Lemma sha256_hex_not_empty str : Sha256.sha256_hex str <> [].
Proof.
  intros H. pose proof (proj1 (sha256_hex_shape str)) as Hlen.
  rewrite H in Hlen. discriminate.
Qed.

(** What [createArchive] records is what the next call of
    [getLastBackupHash] returns: after [createArchive] has completed, and
    when the log can be read, the hash read back is the checksum of the
    entry just appended. The log so far is empty or ends with a line feed,
    and the path of the archive brings no [HASH:] and no line feed into
    the entry. *)
Theorem getLastBackupHash_after_createArchive sourceDir destinationDir w w' :
  createArchive sourceDir destinationDir w = (Ok tt, w') ->
  unfaulted 1 w' ->
  archive_path destinationDir (clock_now w) <> logFilePath ->
  let old := file_text (fs w) logFilePath in
  old = [] \/ (exists o, old = o ++ [line_feed]) ->
  let head :=
    archive_timestamp (clock_now w) ++ lit ": SUCCESS: Backup created at "
      ++ archive_path destinationDir (clock_now w) ++ lit ", " in
  unmarked head -> line_feed_free head ->
  exists checksum,
    file_text (fs w') logFilePath
    = old ++ success_entry (archive_timestamp (clock_now w))
               (archive_path destinationDir (clock_now w)) checksum /\
    fst (getLastBackupHash logFilePath w') = Ok (Some checksum).
Proof.
  intros Hrun Hcalm Hpath old Hold head Hhead Hfree.
  apply createArchive_Ok in Hrun as (w0 & F0 & Htry).
  apply createArchive_try_Ok in Htry as (files & contents & _ & _ & Hfs).
  rewrite F0 in Hfs.
  exists (Sha256.sha256_hex (join [] contents)).
  assert (fs w' !! logFilePath
          = Some (File (old ++ success_entry (archive_timestamp (clock_now w))
                     (archive_path destinationDir (clock_now w))
                     (Sha256.sha256_hex (join [] contents))))) as Hfile.
  { rewrite Hfs. unfold log_appended.
    rewrite lookup_insert_eq, (file_text_insert_ne _ _ _ _ Hpath).
    reflexivity. }
  split; [unfold file_text; rewrite Hfile; reflexivity|].
  destruct (readFile_calm _ _ _ _ Hcalm Hfile) as (w2 & Hread & _).
  rewrite (getLastBackupHash_read _ _ _ _ Hread).
  subst head.
  pose proof (hash_of_lines_success_entry old
                (archive_timestamp (clock_now w))
                (archive_path destinationDir (clock_now w))
                (Sha256.sha256_hex (join [] contents)) Hold Hhead Hfree
                (archive_timestamp_head _) (sha256_hex_not_empty _)
                (proj2 (sha256_hex_shape _))) as Hhash.
  rewrite Hhash. reflexivity.
Qed.


End WriteThenRead.

(* ===================================================================== *)
(** * Names and checksums                                                 *)
(* ===================================================================== *)

Section Names.

Context {platform : Platform} {outside : Outside}.

Import LogGrammar.

Lemma replace_class_clean cls to s :
  List.Forall (fun c => cls c = false) to ->
  List.Forall (fun c => cls c = false) (replace_class cls to s).
Proof.
  intros Hto. unfold replace_class. apply List.Forall_concat, List.Forall_map.
  apply List.Forall_forall. intros c _.
  destruct (cls c) eqn:E; [exact Hto|]. constructor; [exact E|constructor].
Qed.

(** The names that [createArchive] hands to [tar] are cleaned: the time
    stamp in the archive name holds no colon and no dot, and neither the
    path of the archive nor the source directory given to [-C] holds a
    backslash. *)
Theorem archive_names_are_clean sourceDir destinationDir t :
  List.Forall (fun c => c <> 58%N /\ c <> 46%N) (archive_timestamp t) /\
  List.Forall (fun c => c <> 92%N) (archive_path destinationDir t) /\
  List.Forall (fun c => c <> 92%N)
    (replace_class is_backslash (lit "/") sourceDir).
Proof.
  split; [|split].
  - apply List.Forall_impl
      with (P := fun c => is_colon_or_dot c = false).
    + unfold is_colon_or_dot. intros c H.
      apply orb_false_elim in H as [H1 H2].
      apply N.eqb_neq in H1. apply N.eqb_neq in H2. auto.
    + apply replace_class_clean. repeat constructor.
  - apply List.Forall_impl with (P := fun c => is_backslash c = false).
    + unfold is_backslash. intros c H. apply N.eqb_neq in H. exact H.
    + apply replace_class_clean. repeat constructor.
  - apply List.Forall_impl with (P := fun c => is_backslash c = false).
    + unfold is_backslash. intros c H. apply N.eqb_neq in H. exact H.
    + apply replace_class_clean. repeat constructor.
Qed.

(** [calculateDirectoryChecksum] always resolves, with a string of 64
    lower-case hexadecimal digits, and leaves the world as it is. *)
Theorem calculateDirectoryChecksum_hex64 str w :
  exists checksum,
    calculateDirectoryChecksum str w = (Ok checksum, w) /\
    List.length checksum = 64%nat /\
    List.Forall (fun c => is_hex_digit c = true) checksum.
Proof.
  exists (Sha256.sha256_hex str). split; [reflexivity|].
  apply sha256_hex_shape.
Qed.

End Names.

(* ===================================================================== *)
(** * Further runs on concrete worlds                                     *)
(* ===================================================================== *)

Section MoreInstances.

Import Scenario.
Import LogGrammar.
#[local] Existing Instance posix.
#[local] Existing Instance orderly.

Definition src : jsstring := lit "src".
Definition backups : jsstring := lit "backups".

(** No source directory. *)
Definition no_source : World := world_of [] [] t0 [t1].

(** The archiver works, and listing the source directory then fails. *)
Definition listing_fails : World :=
  world_of (one_file ++ [(backups, Dir [])])
    [None; Some (lit "EIO: i/o error, scandir 'src'")] t0 [t1].

Lemma runBackup_skips_witness :
  exists w',
    runBackup src backups (listed listing_ab_c) = (Ok tt, w') /\
    fs w' = fs (listed listing_ab_c) /\
    stdout w' = stdout (listed listing_ab_c) ++ [no_changes_notice] /\
    stderr w' = stderr (listed listing_ab_c) /\
    clock_now w' = clock_now (listed listing_ab_c) /\
    clock_next w' = clock_next (listed listing_ab_c).
Proof.
  apply (runBackup_skips src backups listing_ab_c recorded_abc
           (listed listing_ab_c)).
  - vm_compute. constructor.
  - vm_compute. reflexivity.
  - vm_compute. reflexivity.
  - vm_compute. reflexivity.
Defined.

Lemma runBackup_without_source_witness :
  exists e w',
    fst (readdir src no_source) = Throw e /\
    runBackup src backups no_source = (Ok tt, w') /\
    fs w' = fs no_source /\
    stdout w' = stdout no_source /\
    stderr w' = stderr no_source ++ failure_report e.
Proof.
  apply (runBackup_without_source src backups no_source).
  intros names. vm_compute. discriminate.
Defined.

Lemma runBackup_destination_is_file_witness :
  fst (runBackup src backups blocked_destination) = Ok tt /\
  fs (snd (runBackup src backups blocked_destination))
  = fs blocked_destination.
Proof.
  apply (runBackup_destination_is_file src backups (lit "reserved")
           blocked_destination).
  vm_compute. reflexivity.
Defined.

Lemma createArchive_log_grows_by_one_entry_witness :
  let r := fst (createArchive src backups archiver_down) in
  let w' := snd (createArchive src backups archiver_down) in
  exists added,
    file_text (fs w') logFilePath
    = file_text (fs archiver_down) logFilePath ++ added /\
    ((added = [] /\ exists e, r = Throw e)
     \/ (r = Ok tt /\
         exists checksum,
           added = success_entry (archive_timestamp (clock_now archiver_down))
                     (archive_path backups (clock_now archiver_down)) checksum)
     \/ (exists t msg,
           r = Throw (backup_failure msg) /\
           added = failed_entry (IsoDate.toISOString t) msg)).
Proof.
  apply (createArchive_log_grows_by_one_entry src backups archiver_down).
  vm_compute. discriminate.
Defined.

Lemma createArchive_keeps_archive_of_failed_run_witness :
  let archived :=
    <[archive_path backups t0 := File archive_image]> (fs listing_fails) in
  exists w',
    createArchive src backups listing_fails
      = (Throw (backup_failure (lit "EIO: i/o error, scandir 'src'")), w') /\
    fs w' =
      log_appended archived
        (failed_entry (IsoDate.toISOString t1)
           (lit "EIO: i/o error, scandir 'src'")).
Proof.
  apply (createArchive_keeps_archive_of_failed_run src backups listing_fails
           (lit "EIO: i/o error, scandir 'src'") []).
  - reflexivity.
  - reflexivity.
  - intros names. vm_compute. discriminate.
Defined.

Lemma all_units (P : N -> Prop) `{forall c, Decision (P c)} (s : jsstring) :
  forallb (fun c => bool_decide (P c)) s = true -> List.Forall P s.
Proof.
  intros Hall. apply List.Forall_forall. intros c Hc.
  rewrite List.forallb_forall in Hall.
  exact (bool_decide_eq_true_1 _ (Hall c Hc)).
Qed.

Lemma getLastBackupHash_reads_back_success_entry_witness :
  getLastBackupHash logFilePath after_first_run
  = (Ok (Some (Sha256.sha256_hex (lit "foo"))),
     snd (readFile logFilePath after_first_run)).
Proof.
  apply (getLastBackupHash_reads_back_success_entry after_first_run
           (snd (readFile logFilePath after_first_run)) []
           (archive_timestamp t0) (archive_path backups t0)
           (Sha256.sha256_hex (lit "foo"))).
  - vm_compute. reflexivity.
  - left. reflexivity.
  - vm_compute. reflexivity.
  - apply (all_units (fun c => c <> line_feed)). vm_compute. reflexivity.
  - exists 50%N, (lit "023-11-14T22-13-20-123Z").
    split; vm_compute; reflexivity.
  - vm_compute. discriminate.
  - apply (all_units (fun c => is_hex_digit c = true)).
    vm_compute. reflexivity.
Defined.

(** The source directory with its one file, and the destination directory
    in place. *)
Definition ready : World :=
  world_of (one_file ++ [(backups, Dir [])]) [] t0 [t1].

Lemma getLastBackupHash_after_createArchive_witness :
  let w' := snd (createArchive src backups ready) in
  exists checksum,
    file_text (fs w') logFilePath
    = file_text (fs ready) logFilePath
        ++ success_entry (archive_timestamp t0) (archive_path backups t0)
             checksum /\
    fst (getLastBackupHash logFilePath w') = Ok (Some checksum).
Proof.
  intros w'.
  apply (getLastBackupHash_after_createArchive src backups ready w').
  - vm_compute. reflexivity.
  - vm_compute. constructor.
  - vm_compute. discriminate.
  - left. vm_compute. reflexivity.
  - vm_compute. reflexivity.
  - apply (all_units (fun c => c <> line_feed)). vm_compute. reflexivity.
Defined.



End MoreInstances.
